(** * Decorations.tsx: the decorative kanji field of the main menu

    A shallow embedding of [src/features/MainMenu/Decorations.tsx]:
    the lazily loaded font cache, the colour pool, the comparator shuffle,
    the glyph cell with its timer-driven animation cycle, and the field that
    fetches and stores the glyph list. *)

From Stdlib Require Import ZArith QArith Qround Permutation.
From stdpp Require Import base list strings.

Close Scope Q_scope.
Open Scope string_scope.

(** ** The font cache: [fontsCache], [fontsLoadingPromise], [loadDecorationFonts] *)

Module Fonts.

(** [type DecorationFont = { name; font: { className } }] *)
Record DecorationFont := {
  name : string;
  className : string
}.

(** State of a promise made by [import('./decorationFonts').then(...)]. *)
Inductive Settled :=
| Pending
| Fulfilled (fonts : list DecorationFont)
| Rejected.

(** The two module-level variables and the promises made so far.
    A promise is named by its position in [promises]: one entry is appended
    for each [import('./decorationFonts')] the code performs, so
    [length promises] counts the imports.  [cacheWrites] counts the
    executions of the assignment [fontsCache = module.decorationFonts].
    [fontsCache = None] is JavaScript's [null]; an array, also an empty one,
    is truthy, hence [Some []] passes [if (fontsCache)]. *)
Record Loader := {
  fontsCache : option (list DecorationFont);
  fontsLoadingPromise : option nat;
  promises : list Settled;
  cacheWrites : nat
}.

Definition initial : Loader :=
  {| fontsCache := None; fontsLoadingPromise := None;
     promises := []; cacheWrites := 0 |}.

(** What the async function hands back: a value available at once
    ([return []], [return fontsCache]) or the shared promise. *)
Inductive Returned :=
| Now (fonts : list DecorationFont)
| Shared (p : nat).

Definition isProduction (NODE_ENV : string) : bool :=
  String.eqb NODE_ENV "production".

Definition loadDecorationFonts (NODE_ENV : string) (forceLoad : bool)
    (s : Loader) : Returned * Loader :=
  if negb (isProduction NODE_ENV) && negb forceLoad then (Now [], s)
  else match fontsCache s with
       | Some fonts => (Now fonts, s)
       | None =>
         match fontsLoadingPromise s with
         | Some p => (Shared p, s)
         | None =>
           let p := length (promises s) in
           (Shared p,
            {| fontsCache := fontsCache s;
               fontsLoadingPromise := Some p;
               promises := promises s ++ [Pending];
               cacheWrites := cacheWrites s |})
         end
       end.

(** The import behind promise [p] settles.  On success the [then] callback
    runs: it fills the cache, clears the handle and fulfils the promise with
    the module's list.  On failure the callback does not run and the promise
    is rejected.  A promise settles once: on a settled or unknown [p] nothing
    happens. *)
Definition importSettles (p : nat) (outcome : option (list DecorationFont))
    (s : Loader) : Loader :=
  match promises s !! p with
  | Some Pending =>
    match outcome with
    | Some decorationFonts =>
      {| fontsCache := Some decorationFonts;
         fontsLoadingPromise := None;
         promises := <[p := Fulfilled decorationFonts]> (promises s);
         cacheWrites := S (cacheWrites s) |}
    | None =>
      {| fontsCache := fontsCache s;
         fontsLoadingPromise := fontsLoadingPromise s;
         promises := <[p := Rejected]> (promises s);
         cacheWrites := cacheWrites s |}
    end
  | _ => s
  end.

(** What can happen to the loader during the life of the process. *)
Inductive Event :=
| Call (forceLoad : bool)
| Settle (p : nat) (outcome : option (list DecorationFont)).

Definition step (NODE_ENV : string) (s : Loader) (e : Event) : Loader :=
  match e with
  | Call forceLoad => snd (loadDecorationFonts NODE_ENV forceLoad s)
  | Settle p outcome => importSettles p outcome s
  end.

Definition run (NODE_ENV : string) (events : list Event) : Loader :=
  fold_left (step NODE_ENV) events initial.

(** A load is in flight on [p]. *)
Definition inFlight (s : Loader) (p : nat) : Prop :=
  fontsLoadingPromise s = Some p /\ promises s !! p = Some Pending.

(** A call that gets past the guard on [NODE_ENV] and [forceLoad]. *)
Definition eligible (NODE_ENV : string) (e : Event) : bool :=
  match e with
  | Call forceLoad => isProduction NODE_ENV || forceLoad
  | Settle _ _ => false
  end.

End Fonts.

(** ** The colour pool: [getAllMainColors], [allMainColors] *)

Module Themes.

(** The part of a theme of [@/features/Preferences/data/themes] that the
    decorations read.  [secondaryColor = None] is an absent property. *)
Record Theme := {
  mainColor : string;
  secondaryColor : option string
}.

Record ThemeGroup := {
  themes : list Theme
}.

(** [colors.add(c)] on a [Set<string>]: insertion order, no duplicates. *)
Definition add (c : string) (colors : list string) : list string :=
  if bool_decide (c ∈ colors) then colors else colors ++ [c].

(** [if (theme.secondaryColor)]: absent and empty strings are falsy. *)
Definition truthy (c : string) : bool := negb (String.eqb c "").

Definition addTheme (colors : list string) (theme : Theme) : list string :=
  let colors := add (mainColor theme) colors in
  match secondaryColor theme with
  | Some c => if truthy c then add c colors else colors
  | None => colors
  end.

(** [themeSets[2].themes.forEach(...)]; [None] is the TypeError raised when
    there is no third group. *)
Definition getAllMainColors (themeSets : list ThemeGroup)
    : option (list string) :=
  match themeSets !! 2 with
  | Some themeGroup => Some (fold_left addTheme (themes themeGroup) [])
  | None => None
  end.

(** A colour the designated group offers. *)
Definition offers (themeGroup : ThemeGroup) (c : string) : Prop :=
  exists theme, theme ∈ themes themeGroup /\
    (c = mainColor theme \/ (secondaryColor theme = Some c /\ c <> "")).

End Themes.

(** ** Random numbers, the comparator shuffle and the engine's sort *)

Module Shuffle.

(** Successive results of [Math.random()]: the [k]-th call returns the
    double that [random k] denotes. *)
Definition Random := nat -> Q.

(** [() => Math.random() - 0.5], at the [k]-th draw.  A sort reads the
    sign of the result, which the rounding of the subtraction keeps. *)
Definition comparator (random : Random) (k : nat) : Q :=
  (random k - (1 # 2))%Q.

(** A [comparefn] as a sort sees it: called on two elements when [k] draws
    have been made, it returns its number and the count of draws after the
    call. *)
Definition Comparefn (T : Type) : Type := T -> T -> nat -> Q * nat.

(** The comparator of the shuffle: it does not look at its arguments. *)
Definition randomOrder {T : Type} (random : Random) : Comparefn T :=
  fun _ _ k => (comparator random k, S k).

(** [Array.prototype.sort] belongs to the engine that runs the page, not to
    the program, and engines differ in the comparisons they make and in the
    order they return for a comparator like this one.  It is a parameter:
    given [comparefn], the items and the count of draws, it returns the
    items in their new order and the count of draws after it. *)
Definition Sort : Type :=
  forall T : Type, Comparefn T -> list T -> nat -> list T * nat.

(** [arr.slice().sort(() => Math.random() - 0.5)] *)
Definition shuffle {T : Type} (sort : Sort) (random : Random)
    (arr : list T) : list T :=
  (sort T (randomOrder random) arr 0).1.


(** One such sort, for the examples: straight insertion.  Each item in turn
    is compared with the items before it, nearest first, by
    [comparefn(x, y)], and moves in front of [y] while the result is
    negative.  [before] holds the items already placed, last one first. *)
Definition isNegative (q : Q) : bool := (Qnum q <? 0)%Z.

Section Insertion.
Context {T : Type}.

Fixpoint insertInto (comparefn : Comparefn T) (k : nat) (x : T)
    (before : list T) : list T * nat :=
  match before with
  | [] => ([x], k)
  | y :: rest =>
    let '(v, k') := comparefn x y k in
    if isNegative v
    then let '(moved, k'') := insertInto comparefn k' x rest in
         (y :: moved, k'')
    else (x :: y :: rest, k')
  end.

Fixpoint insertAll (comparefn : Comparefn T) (k : nat)
    (before todo : list T) : list T * nat :=
  match todo with
  | [] => (rev before, k)
  | x :: todo' =>
    let '(before', k') := insertInto comparefn k x before in
    insertAll comparefn k' before' todo'
  end.

End Insertion.

Definition insertionSort : Sort :=
  fun T comparefn items k => insertAll comparefn k [] items.

(** The double nearest to a rational [x >= 0], ties to even: [ulp] is the
    distance between the doubles around [x] (with the smallest one,
    [2^-1074], for the subnormal range; overflow to infinity is left out). *)
Definition roundToDouble (x : Q) : Q :=
  match Qnum x with
  | Zpos p =>
    let l := (Z.log2 (Zpos p) - Z.log2 (Zpos (Qden x)))%Z in
    let l := if Qle_bool (Qpower 2 l) x then l else (l - 1)%Z in
    let ulp := Qpower 2 (Z.max (l - 52) (-1074)) in
    let scaled := (x / ulp)%Q in
    let m := Qfloor scaled in
    let up := match (scaled - inject_Z m ?= 1 # 2)%Q with
              | Gt => true
              | Eq => Z.odd m
              | Lt => false
              end in
    (inject_Z (if up then m + 1 else m) * ulp)%Q
  | _ => x
  end.

(** [Math.floor(Math.random() * n)] for the draw [r]: the product is
    rounded to a double before the floor is taken. *)
Definition randomIndex (r : Q) (n : nat) : nat :=
  Z.to_nat (Qfloor (roundToDouble (r * inject_Z (Z.of_nat n))%Q)).

End Shuffle.

(** ** The glyph cell: [KanjiCharacter] *)

Module Cell.

Inductive AnimState := Idle | Exploding | Hidden | FadingIn.

#[global] Instance AnimState_eq_dec : EqDecision AnimState.
Proof. solve_decision. Defined.

(** The three nested [setTimeout] callbacks of [handleClick], outermost
    first. *)
Inductive Callback := AfterExplosion | AfterHidden | AfterFadeIn.

#[global] Instance Callback_eq_dec : EqDecision Callback.
Proof. solve_decision. Defined.

Record Timer := {
  due : nat;
  callback : Callback
}.

(** Calls the cell makes to the outside, kept with the time of the call. *)
Inductive Effect :=
| PlayClick
| SetAnimState (state : AnimState)
| SetTimeout (cb : Callback) (delay : nat).

#[global] Instance Effect_eq_dec : EqDecision Effect.
Proof. solve_decision. Defined.

(** The [styles] slot; [None] is [undefined], read from an empty pool. *)
Record Styles := {
  color : option string;
  fontClass : string;
  animation : option string
}.

(** One mounted [KanjiCharacter]: its props, its [useState] slots, the
    [isMounted] flag of its effect, what [initializeStyles] is suspended on,
    and the clock (in ms), pending timers and calls that concern it. *)
Record Cell := {
  char : string;
  forceShow : bool;
  interactive : bool;
  mounted : bool;
  animState : AnimState;
  styles : Styles;
  animationDelay : Q;
  isMounted : bool;
  awaiting : option Fonts.Returned;
  now : nat;
  timers : list Timer;
  log : list (nat * Effect)
}.

Definition animations : list string := ["motion-safe:animate-pulse"].

(** First render and start of the effect: [isMounted = true], nothing shown
    yet ([if (!mounted) return null]). *)
Definition create (char : string) (forceShow interactive : bool)
    (delayDraw : Q) (now : nat) : Cell :=
  {| char := char; forceShow := forceShow; interactive := interactive;
     mounted := false; animState := Idle;
     styles := {| color := Some ""; fontClass := ""; animation := Some "" |};
     animationDelay := Shuffle.roundToDouble (delayDraw * 1000)%Q;
     isMounted := true; awaiting := None;
     now := now; timers := []; log := [] |}.

Definition withInit (c : Cell) (st : Styles) : Cell :=
  {| char := char c; forceShow := forceShow c; interactive := interactive c;
     mounted := true; animState := animState c; styles := st;
     animationDelay := animationDelay c; isMounted := isMounted c;
     awaiting := None; now := now c; timers := timers c; log := log c |}.

Definition withAwaiting (c : Cell) (a : option Fonts.Returned) : Cell :=
  {| char := char c; forceShow := forceShow c; interactive := interactive c;
     mounted := mounted c; animState := animState c; styles := styles c;
     animationDelay := animationDelay c; isMounted := isMounted c;
     awaiting := a; now := now c; timers := timers c; log := log c |}.

Definition withIsMounted (c : Cell) (b : bool) : Cell :=
  {| char := char c; forceShow := forceShow c; interactive := interactive c;
     mounted := mounted c; animState := animState c; styles := styles c;
     animationDelay := animationDelay c; isMounted := b;
     awaiting := awaiting c; now := now c; timers := timers c; log := log c |}.

Definition withClock (c : Cell) (t : nat) (ts : list Timer) : Cell :=
  {| char := char c; forceShow := forceShow c; interactive := interactive c;
     mounted := mounted c; animState := animState c; styles := styles c;
     animationDelay := animationDelay c; isMounted := isMounted c;
     awaiting := awaiting c; now := t; timers := ts; log := log c |}.

(** [playClick()] *)
Definition playClick (c : Cell) : Cell :=
  {| char := char c; forceShow := forceShow c; interactive := interactive c;
     mounted := mounted c; animState := animState c; styles := styles c;
     animationDelay := animationDelay c; isMounted := isMounted c;
     awaiting := awaiting c; now := now c; timers := timers c;
     log := log c ++ [(now c, PlayClick)] |}.

(** [setAnimState(s)]: the call is recorded in the log, and the slot holds
    the state last asked for.  The code makes the call whether or not the
    cell is still mounted.  On a mounted cell the slot is the state React
    renders next; after the cleanup React discards the request, so there
    the slot only says what was asked for, and nothing is to be read from
    it about the screen. *)
Definition setAnimState (s : AnimState) (c : Cell) : Cell :=
  {| char := char c; forceShow := forceShow c; interactive := interactive c;
     mounted := mounted c; animState := s; styles := styles c;
     animationDelay := animationDelay c; isMounted := isMounted c;
     awaiting := awaiting c; now := now c; timers := timers c;
     log := log c ++ [(now c, SetAnimState s)] |}.

(** [setTimeout(cb, delay)] *)
Definition setTimeout (cb : Callback) (delay : nat) (c : Cell) : Cell :=
  {| char := char c; forceShow := forceShow c; interactive := interactive c;
     mounted := mounted c; animState := animState c; styles := styles c;
     animationDelay := animationDelay c; isMounted := isMounted c;
     awaiting := awaiting c; now := now c;
     timers := timers c ++ [{| due := now c + delay; callback := cb |}];
     log := log c ++ [(now c, SetTimeout cb delay)] |}.

(** The start of [initializeStyles]: the call
    [loadDecorationFonts(forceShow)], on whose result the function waits. *)
Definition initializeStyles_call (NODE_ENV : string) (c : Cell)
    (loader : Fonts.Loader) : Cell * Fonts.Loader :=
  let '(r, loader') := Fonts.loadDecorationFonts NODE_ENV (forceShow c) loader in
  (withAwaiting c (Some r), loader').

(** The value an [await] on [r] yields, once there is one. *)
Definition awaited (loader : Fonts.Loader) (r : Fonts.Returned)
    : option (list Fonts.DecorationFont) :=
  match r with
  | Fonts.Now fonts => Some fonts
  | Fonts.Shared p =>
    match Fonts.promises loader !! p with
    | Some (Fonts.Fulfilled fonts) => Some fonts
    | _ => None
    end
  end.

(** The rest of [initializeStyles], run with the awaited [fonts].  The three
    draws are those of [Math.random()] for colour, font and animation. *)
Definition initializeStyles_resume (allMainColors : list string)
    (r1 r2 r3 : Q) (fonts : list Fonts.DecorationFont) (c : Cell) : Cell :=
  if negb (isMounted c) then withAwaiting c None
  else
    let randomColor :=
      allMainColors !! Shuffle.randomIndex r1 (length allMainColors) in
    let randomFont :=
      if bool_decide (0 < length fonts)
      then fonts !! Shuffle.randomIndex r2 (length fonts)
      else None in
    let randomAnimation :=
      animations !! Shuffle.randomIndex r3 (length animations) in
    withInit c
      {| color := randomColor;
         fontClass := from_option Fonts.className "" randomFont;
         animation := randomAnimation |}.

(** The effect's cleanup. *)
Definition unmount (c : Cell) : Cell := withIsMounted c false.

Definition handleClick (c : Cell) : Cell :=
  if negb (interactive c) || negb (bool_decide (animState c = Idle)) then c
  else setTimeout AfterExplosion 300 (setAnimState Exploding (playClick c)).

(** What a timer does when it fires. *)
Definition fire (cb : Callback) (c : Cell) : Cell :=
  match cb with
  | AfterExplosion => setTimeout AfterHidden 1500 (setAnimState Hidden c)
  | AfterHidden => setTimeout AfterFadeIn 500 (setAnimState FadingIn c)
  | AfterFadeIn => setAnimState Idle c
  end.

Definition isDue (t : nat) (timer : Timer) : bool := (due timer <=? t)%nat.

(** One millisecond passes; the timers then due fire in the order in which
    they were set.  Every delay in the code is positive, so a timer set
    during this millisecond is not due in it. *)
Definition tick (c : Cell) : Cell :=
  let t := S (now c) in
  let dueNow := List.filter (isDue t) (timers c) in
  let later := List.filter (fun timer => negb (isDue t timer)) (timers c) in
  fold_left (fun c timer => fire (callback timer) c) dueNow (withClock c t later).

Definition wait (ms : nat) (c : Cell) : Cell := Nat.iter ms tick c.

(** The inline style besides the colour. *)
Inductive AnimationStyle :=
| AnimationDelay (ms : Q)
| Animation (value : string)
| Opacity (value : nat)
| NoStyle.

Definition getAnimationStyle (c : Cell) : AnimationStyle :=
  if negb (interactive c) then AnimationDelay (animationDelay c)
  else match animState c with
       | Exploding => Animation "explode 300ms ease-out forwards"
       | Hidden => Opacity 0
       | FadingIn => Animation "fadeIn 500ms ease-in forwards"
       | Idle => NoStyle
       end.

(** [clsx(...)]: the truthy arguments, in order; [None] is [false] or
    [undefined]. *)
Definition clsx (args : list (option string)) : list string :=
  omap (fun a => match a with
                 | Some s => if String.eqb s "" then None else Some s
                 | None => None
                 end) args.

Record Span := {
  span_class : list string;
  span_color : option string;
  span_style : AnimationStyle;
  span_onClick : bool;
  span_text : string
}.

(** What the component returns: nothing before [mounted], then the span. *)
Definition render (c : Cell) : option Span :=
  if negb (mounted c) then None
  else Some
    {| span_class :=
         clsx [Some "text-4xl";
               Some (fontClass (styles c));
               if negb (interactive c) then animation (styles c) else None;
               if interactive c then Some "cursor-pointer" else None];
       span_color := color (styles c);
       span_style := getAnimationStyle c;
       span_onClick := interactive c;
       span_text := char c |}.

(** A click of the user reaches [handleClick] when the span is on screen
    and carries the handler. *)
Definition click (c : Cell) : Cell :=
  match render c with
  | Some span => if isMounted c && span_onClick span then handleClick c else c
  | None => c
  end.

Inductive Event :=
| Click
| Wait (ms : nat)
| Unmount
| StylesReady (allMainColors : list string) (r1 r2 r3 : Q)
    (fonts : list Fonts.DecorationFont).

Definition step (c : Cell) (e : Event) : Cell :=
  match e with
  | Click => click c
  | Wait ms => wait ms c
  | Unmount => unmount c
  | StylesReady allMainColors r1 r2 r3 fonts =>
    initializeStyles_resume allMainColors r1 r2 r3 fonts c
  end.

Definition run (c : Cell) (events : list Event) : Cell :=
  fold_left step events c.

(** Time that passes during [events]. *)
Definition elapsed (events : list Event) : nat :=
  foldr (fun e n => match e with Wait ms => ms + n | _ => n end) 0 events.

(** The states asked for with [setAnimState], and the number of audio cues,
    in a log. *)
Definition statesSet (l : list (nat * Effect)) : list AnimState :=
  omap (fun e => match e.2 with SetAnimState s => Some s | _ => None end) l.

Definition cues (l : list (nat * Effect)) : nat :=
  length (filter (fun e => e.2 = PlayClick) l).

Definition next (s : AnimState) : AnimState :=
  match s with
  | Idle => Exploding
  | Exploding => Hidden
  | Hidden => FadingIn
  | FadingIn => Idle
  end.

(** [follows s l]: starting after state [s], the list [l] walks the cycle
    one state at a time. *)
Fixpoint follows (s : AnimState) (l : list AnimState) : Prop :=
  match l with
  | [] => True
  | x :: l' => x = next s /\ follows x l'
  end.

(** Where a cycle started by a click stands [n] ms after the click: the
    state, the timer that is pending, the states visited and the calls
    made so far ([t0] is the time of the click). *)
Definition phase (n : nat) : AnimState :=
  if (n <? 300)%nat then Exploding
  else if (n <? 1800)%nat then Hidden
  else if (n <? 2300)%nat then FadingIn
  else Idle.

Definition pendingTimer (t0 n : nat) : list Timer :=
  if (n <? 300)%nat then [{| due := t0 + 300; callback := AfterExplosion |}]
  else if (n <? 1800)%nat then [{| due := t0 + 1800; callback := AfterHidden |}]
  else if (n <? 2300)%nat then [{| due := t0 + 2300; callback := AfterFadeIn |}]
  else [].

Definition visited (n : nat) : list AnimState :=
  [Exploding]
  ++ (if (300 <=? n)%nat then [Hidden] else [])
  ++ (if (1800 <=? n)%nat then [FadingIn] else [])
  ++ (if (2300 <=? n)%nat then [Idle] else []).

Definition cycleLog (t0 n : nat) : list (nat * Effect) :=
  [(t0, PlayClick); (t0, SetAnimState Exploding);
   (t0, SetTimeout AfterExplosion 300)]
  ++ (if (300 <=? n)%nat
      then [(t0 + 300, SetAnimState Hidden);
            (t0 + 300, SetTimeout AfterHidden 1500)] else [])
  ++ (if (1800 <=? n)%nat
      then [(t0 + 1800, SetAnimState FadingIn);
            (t0 + 1800, SetTimeout AfterFadeIn 500)] else [])
  ++ (if (2300 <=? n)%nat then [(t0 + 2300, SetAnimState Idle)] else []).

(** The cell is in the cycle started at [t0] on top of the log [l0]. *)
Definition InCycle (t0 : nat) (l0 : list (nat * Effect)) (c : Cell) : Prop :=
  t0 <= now c /\ now c <= t0 + 2300 /\
  animState c = phase (now c - t0) /\
  timers c = pendingTimer t0 (now c - t0) /\
  log c = (l0 ++ cycleLog t0 (now c - t0))%list.

(** A log whose states walk the cycle from [Idle], with one audio cue for
    each [Exploding]. *)
Definition WellLogged (l : list (nat * Effect)) : Prop :=
  follows Idle (statesSet l) /\
  cues l = length (filter (fun s => s = Exploding) (statesSet l)).

(** What holds of a cell at any time: it rests with no timer pending, or it
    is less than 2300 ms into a cycle. *)
Definition Steady (c : Cell) : Prop :=
  (animState c = Idle /\ timers c = [] /\ WellLogged (log c) /\
   List.last (statesSet (log c)) Idle = Idle)
  \/ exists t0 l0,
       InCycle t0 l0 c /\ now c < t0 + 2300 /\ WellLogged l0 /\
       List.last (statesSet l0) Idle = Idle.

Definition isStylesReady (e : Event) : bool :=
  match e with StylesReady _ _ _ _ _ => true | _ => false end.

(** A cell that has made no call and rests. *)
Definition Silent (c : Cell) : Prop :=
  log c = [] /\ timers c = [] /\ animState c = Idle.

(** Every audio cue of a cell created at [t] is paid for by 2300 ms: the
    cell rests and its cues fit into the time gone by, or it is in a cycle
    and the cues before that cycle fit into the time before it. *)
Definition Paced (t : nat) (c : Cell) : Prop :=
  (animState c = Idle /\ timers c = [] /\ t <= now c /\
   2300 * cues (log c) <= now c - t)
  \/ exists t0 l0,
       InCycle t0 l0 c /\ now c < t0 + 2300 /\ t <= t0 /\
       2300 * cues l0 <= t0 - t.

(** The effects of the cells of a field start one after the other, each
    calling [loadDecorationFonts] on the loader the one before left. *)
Fixpoint mountAll (NODE_ENV : string) (cells : list Cell)
    (loader : Fonts.Loader) : list Cell * Fonts.Loader :=
  match cells with
  | [] => ([], loader)
  | c :: rest =>
    let '(c', loader') := initializeStyles_call NODE_ENV c loader in
    let '(rest', loader'') := mountAll NODE_ENV rest loader' in
    (c' :: rest', loader'')
  end.

End Cell.

(** ** The field: [Decorations] *)

Module Field.

(** [type RawKanjiEntry = { kanjiChar }]; other properties of an entry are
    not read. *)
Record RawKanjiEntry := {
  kanjiChar : string
}.

Definition kanjiSources : list string := ["N5"; "N4"; "N3"].

Definition url (level : string) : string := "/kanji/" ++ level ++ ".json".

(** What becomes of [fetch(url)] followed by [response.json()]. *)
Inductive Response :=
| FetchRejects
| JsonRejects
| Payload (data : list RawKanjiEntry).

Definition Server := string -> Response.

(** The props, the [kanjiList] slot, the effect's [isMounted] flag, the
    requests sent so far, and the rejections of [loadKanji()] that nobody
    handles ([void loadKanji()]). *)
Record Field := {
  expandDecorations : bool;
  forceShow : bool;
  interactive : bool;
  kanjiList : list string;
  isMounted : bool;
  requests : list string;
  unhandledRejections : nat
}.

Definition create (expandDecorations forceShow interactive : bool) : Field :=
  {| expandDecorations := expandDecorations; forceShow := forceShow;
     interactive := interactive; kanjiList := []; isMounted := false;
     requests := []; unhandledRejections := 0 |}.

(** The effect starts: [isMounted = true], and [loadKanji] sends the three
    requests before its first suspension. *)
Definition loadKanji_call (f : Field) : Field :=
  {| expandDecorations := expandDecorations f; forceShow := forceShow f;
     interactive := interactive f; kanjiList := kanjiList f;
     isMounted := true;
     requests := requests f ++ map url kanjiSources;
     unhandledRejections := unhandledRejections f |}.

Definition unmount (f : Field) : Field :=
  {| expandDecorations := expandDecorations f; forceShow := forceShow f;
     interactive := interactive f; kanjiList := kanjiList f;
     isMounted := false; requests := requests f;
     unhandledRejections := unhandledRejections f |}.

Definition setKanjiList (l : list string) (f : Field) : Field :=
  {| expandDecorations := expandDecorations f; forceShow := forceShow f;
     interactive := interactive f; kanjiList := l;
     isMounted := isMounted f; requests := requests f;
     unhandledRejections := unhandledRejections f |}.

Definition rejected (f : Field) : Field :=
  {| expandDecorations := expandDecorations f; forceShow := forceShow f;
     interactive := interactive f; kanjiList := kanjiList f;
     isMounted := isMounted f; requests := requests f;
     unhandledRejections := S (unhandledRejections f) |}.

(** One element of [kanjiSources.map(async level => ...)]: [None] when the
    promise rejects. *)
Definition fetchLevel (server : Server) (level : string)
    : option (list string) :=
  match server (url level) with
  | Payload data => Some (map kanjiChar data)
  | _ => None
  end.

(** [Promise.all]: all the values, or a rejection as soon as one rejects. *)
Definition promiseAll {A} (ps : list (option A)) : option (list A) :=
  mapM id ps.

(** The rest of [loadKanji], once the three requests have settled. *)
Definition loadKanji_resume (sort : Shuffle.Sort) (server : Server)
    (random : Shuffle.Random) (f : Field) : Field :=
  match promiseAll (map (fetchLevel server) kanjiSources) with
  | None => rejected f
  | Some results =>
    if negb (isMounted f) then f
    else setKanjiList (Shuffle.shuffle sort random (concat results)) f
  end.

(** The children of the grid: one [KanjiCharacter] per glyph, in the order
    of the list, with the flags of the field. *)
Record CellProps := {
  cell_key : nat;
  cell_char : string;
  cell_forceShow : bool;
  cell_interactive : bool
}.

Definition renderCells (f : Field) : list CellProps :=
  imap (fun index char =>
          {| cell_key := index; cell_char := char;
             cell_forceShow := forceShow f;
             cell_interactive := interactive f |}) (kanjiList f).

(** What the field shows: the keyframes if interactive, the two class
    lists, the cells. *)
Record View := {
  view_keyframes : bool;
  view_layer : list string;
  view_grid : list string;
  view_cells : list CellProps
}.

Definition render (f : Field) : View :=
  {| view_keyframes := interactive f;
     view_layer :=
       Cell.clsx [Some "fixed inset-0 overflow-hidden";
                  Some (if expandDecorations f then "opacity-100"
                        else "opacity-30");
                  Some (if interactive f then "pointer-events-auto"
                        else "pointer-events-none")];
     view_grid :=
       Cell.clsx [Some "grid gap-0.5 p-2 h-full w-full";
                  Some (if interactive f then "grid-cols-10 md:grid-cols-28"
                        else "grid-cols-28")];
     view_cells := renderCells f |}.

(** The request for [level] fails, in [fetch] or in [response.json()]. *)
Definition fails (server : Server) (level : string) : Prop :=
  server (url level) = FetchRejects \/ server (url level) = JsonRejects.

End Field.

(** ** Invariants *)

(** The shapes the loader can take. *)
Inductive Shape : Fonts.Loader -> Prop :=
| shape_fresh :
    Shape Fonts.initial
| shape_loading :
    Shape {| Fonts.fontsCache := None; Fonts.fontsLoadingPromise := Some 0;
             Fonts.promises := [Fonts.Pending]; Fonts.cacheWrites := 0 |}
| shape_failed :
    Shape {| Fonts.fontsCache := None; Fonts.fontsLoadingPromise := Some 0;
             Fonts.promises := [Fonts.Rejected]; Fonts.cacheWrites := 0 |}
| shape_cached fonts :
    Shape {| Fonts.fontsCache := Some fonts; Fonts.fontsLoadingPromise := None;
             Fonts.promises := [Fonts.Fulfilled fonts];
             Fonts.cacheWrites := 1 |}.

(** * Properties *)

(** ** The font cache *)

Ltac split_guard env force :=
  unfold Fonts.loadDecorationFonts;
  destruct (negb (Fonts.isProduction env) && negb force); cbn.

Lemma step_shape env s e : Shape s -> Shape (Fonts.step env s e).
Proof.
  intros [| | |fonts]; destruct e as [force|p outcome]; cbn;
    try (split_guard env force; constructor);
    destruct p as [|p]; cbn; try constructor.
  destruct outcome; cbn; constructor.
Qed.

Lemma fold_shape env events s :
  Shape s -> Shape (fold_left (Fonts.step env) events s).
Proof.
  revert s; induction events as [|e events IH]; intros s Hs; cbn; [done|].
  apply IH, step_shape, Hs.
Qed.

Lemma run_shape env events : Shape (Fonts.run env events).
Proof. apply fold_shape; constructor. Qed.

Lemma run_app env pre post :
  Fonts.run env (pre ++ post)
  = fold_left (Fonts.step env) post (Fonts.run env pre).
Proof. unfold Fonts.run. apply fold_left_app. Qed.

Lemma loading_allowed env force :
  Fonts.isProduction env = true \/ force = true ->
  negb (Fonts.isProduction env) && negb force = false.
Proof. intros [->| ->]; [done|]. by rewrite andb_false_r. Qed.

Lemma inFlight_loading s p :
  Shape s -> Fonts.inFlight s p ->
  p = 0 /\
  s = {| Fonts.fontsCache := None; Fonts.fontsLoadingPromise := Some 0;
         Fonts.promises := [Fonts.Pending]; Fonts.cacheWrites := 0 |}.
Proof.
  intros Hs [Hp Hq]; destruct Hs; cbn in *; try discriminate.
  - injection Hp as <-. done.
  - injection Hp as <-. discriminate.
Qed.

(** Once the import has failed, no event changes the loader. *)
Lemma failed_stays env events :
  let failed :=
    {| Fonts.fontsCache := None; Fonts.fontsLoadingPromise := Some 0;
       Fonts.promises := [Fonts.Rejected]; Fonts.cacheWrites := 0 |} in
  fold_left (Fonts.step env) events failed = failed.
Proof.
  induction events as [|e events IH]; cbn; [done|].
  destruct e as [force|p outcome]; cbn.
  - split_guard env force; apply IH.
  - destruct p as [|p]; cbn; apply IH.
Qed.

(** C2, as stated, fails: a caller without [forceLoad] outside production
    that arrives while a load is in flight is handed the empty list, not the
    pending load. *)
Lemma font_loader_in_flight_not_shared_by_all :
  ~ (forall env events forceLoad p,
       Fonts.inFlight (Fonts.run env events) p ->
       (Fonts.loadDecorationFonts env forceLoad (Fonts.run env events)).1
       = Fonts.Shared p).
Proof.
  intros H.
  specialize (H "development" [Fonts.Call true] false 0).
  cbn in H. discriminate H. by split.
Qed.

(** C2 (amended): for every sequence of calls and settlements, at most one
    import is performed and the cache is written at most once; while a load
    is in flight, every caller in production or with [forceLoad] is handed
    the same pending load and no import is made, and every other caller is
    handed the empty list. *)
Theorem font_loader_single_import env events :
  let s := Fonts.run env events in
  length (Fonts.promises s) <= 1 /\
  Fonts.cacheWrites s <= 1 /\
  forall p forceLoad,
    Fonts.inFlight s p ->
    (Fonts.isProduction env = true \/ forceLoad = true ->
     Fonts.loadDecorationFonts env forceLoad s = (Fonts.Shared p, s)) /\
    (Fonts.isProduction env = false -> forceLoad = false ->
     Fonts.loadDecorationFonts env forceLoad s = (Fonts.Now [], s)).
Proof.
  intros s. pose proof (run_shape env events) as Hs. fold s in Hs.
  split; [destruct Hs; cbn; lia|].
  split; [destruct Hs; cbn; lia|].
  intros p force Hp.
  destruct (inFlight_loading _ _ Hs Hp) as [-> Heq].
  split.
  - intros Hok. unfold Fonts.loadDecorationFonts.
    rewrite (loading_allowed _ _ Hok), Heq. done.
  - intros Henv ->. unfold Fonts.loadDecorationFonts. by rewrite Henv.
Qed.

Lemma font_loader_single_import_witness :
  let s := Fonts.run "development" [Fonts.Call true; Fonts.Call true] in
  length (Fonts.promises s) = 1 /\
  Fonts.loadDecorationFonts "development" true s = (Fonts.Shared 0, s) /\
  Fonts.loadDecorationFonts "development" false s = (Fonts.Now [], s).
Proof.
  pose proof (font_loader_single_import "development"
                [Fonts.Call true; Fonts.Call true]) as (_ & _ & H).
  destruct (H 0 true) as [H1 _]; [by split|].
  destruct (H 0 false) as [_ H2]; [by split|].
  split; [reflexivity|]. split; [apply H1; by right | by apply H2].
Defined.

(** C3, as stated, fails: outside production a call without [forceLoad]
    returns the empty list even when the cache is populated. *)
Lemma cached_fonts_not_returned_unforced :
  ~ (forall env events forceLoad fonts,
       Fonts.fontsCache (Fonts.run env events) = Some fonts ->
       Fonts.loadDecorationFonts env forceLoad (Fonts.run env events)
       = (Fonts.Now fonts, Fonts.run env events)).
Proof.
  intros H.
  pose (f := {| Fonts.name := "Yuji Mai"; Fonts.className := "font-yuji" |}).
  specialize (H "development"
                [Fonts.Call true; Fonts.Settle 0 (Some [f])] false [f]).
  cbn in H. specialize (H eq_refl). discriminate H.
Qed.

(** C3 (amended): after a load has completed, a call in production or with
    [forceLoad] returns the cached list at once, and a call outside
    production without [forceLoad] returns the empty list at once; neither
    imports again nor touches the cache. *)
Theorem cached_fonts_returned env events forceLoad fonts :
  let s := Fonts.run env events in
  Fonts.fontsCache s = Some fonts ->
  Fonts.promises s = [Fonts.Fulfilled fonts] /\
  Fonts.loadDecorationFonts env forceLoad s
  = (Fonts.Now (if Fonts.isProduction env || forceLoad then fonts else []), s).
Proof.
  intros s Hc. pose proof (run_shape env events) as Hs. fold s in Hs.
  split.
  - destruct Hs; cbn in *; try discriminate. by injection Hc as ->.
  - unfold Fonts.loadDecorationFonts. rewrite Hc.
    by destruct (Fonts.isProduction env), forceLoad.
Qed.

Lemma cached_fonts_returned_witness :
  let f := {| Fonts.name := "Yuji Mai"; Fonts.className := "font-yuji" |} in
  let s := Fonts.run "production"
             [Fonts.Call false; Fonts.Settle 0 (Some [f])] in
  Fonts.loadDecorationFonts "production" false s = (Fonts.Now [f], s).
Proof.
  intros f s.
  exact (proj2 (cached_fonts_returned "production"
                  [Fonts.Call false; Fonts.Settle 0 (Some [f])] false [f]
                  eq_refl)).
Defined.

(** C10: once the import has been rejected, the handle keeps the rejected
    promise and the cache stays empty whatever happens next: every later
    call in production or with [forceLoad] is handed that rejected promise,
    and the import performed remains the only one. *)
Theorem rejected_import_is_kept env pre post p :
  Fonts.inFlight (Fonts.run env pre) p ->
  let s := Fonts.run env (pre ++ Fonts.Settle p None :: post) in
  Fonts.fontsLoadingPromise s = Some p /\
  Fonts.promises s !! p = Some Fonts.Rejected /\
  Fonts.fontsCache s = None /\
  Fonts.cacheWrites s = 0 /\
  length (Fonts.promises s) = 1 /\
  forall forceLoad,
    Fonts.isProduction env = true \/ forceLoad = true ->
    Fonts.loadDecorationFonts env forceLoad s = (Fonts.Shared p, s).
Proof.
  intros Hp s.
  destruct (inFlight_loading _ _ (run_shape env pre) Hp) as [-> Heq].
  assert (Hs : s = {| Fonts.fontsCache := None;
                      Fonts.fontsLoadingPromise := Some 0;
                      Fonts.promises := [Fonts.Rejected];
                      Fonts.cacheWrites := 0 |}).
  { unfold s. rewrite run_app, Heq. cbn. apply failed_stays. }
  rewrite Hs. cbn. repeat split.
  intros force Hok. unfold Fonts.loadDecorationFonts.
  by rewrite (loading_allowed _ _ Hok).
Qed.

Lemma rejected_import_is_kept_witness :
  let s := Fonts.run "production"
             [Fonts.Call false; Fonts.Settle 0 None; Fonts.Call true;
              Fonts.Settle 0 (Some [])] in
  length (Fonts.promises s) = 1 /\
  Fonts.loadDecorationFonts "production" false s = (Fonts.Shared 0, s).
Proof.
  pose proof (rejected_import_is_kept "production" [Fonts.Call false]
                [Fonts.Call true; Fonts.Settle 0 (Some [])] 0)
    as H.
  destruct H as (_ & _ & _ & _ & Hlen & Hcall); [by split|].
  split; [exact Hlen | apply Hcall; by left].
Defined.

(** ** The colour pool *)

Lemma add_elem c c' colors :
  c' ∈ Themes.add c colors <-> c' = c \/ c' ∈ colors.
Proof.
  unfold Themes.add. case_bool_decide as Hin.
  - split; [by right|]. by intros [->|].
  - rewrite elem_of_app, list_elem_of_singleton. tauto.
Qed.

Lemma add_NoDup c colors : NoDup colors -> NoDup (Themes.add c colors).
Proof.
  intros Hnd. unfold Themes.add. case_bool_decide as Hin; [done|].
  apply NoDup_app. split; [done|]. split.
  - intros x Hx ->%list_elem_of_singleton. done.
  - apply NoDup_singleton.
Qed.

Lemma addTheme_NoDup colors theme :
  NoDup colors -> NoDup (Themes.addTheme colors theme).
Proof.
  intros Hnd. unfold Themes.addTheme.
  destruct (Themes.secondaryColor theme) as [c|]; [|by apply add_NoDup].
  destruct (Themes.truthy c); by repeat apply add_NoDup.
Qed.

Lemma truthy_spec c : Themes.truthy c = true <-> c <> "".
Proof.
  unfold Themes.truthy. destruct (String.eqb_spec c ""); cbn; split; try done.
Qed.

Lemma addTheme_elem colors theme c :
  c ∈ Themes.addTheme colors theme <->
  c ∈ colors \/ c = Themes.mainColor theme \/
  (Themes.secondaryColor theme = Some c /\ c <> "").
Proof.
  unfold Themes.addTheme.
  destruct (Themes.secondaryColor theme) as [c2|] eqn:H2.
  - destruct (Themes.truthy c2) eqn:Ht.
    + apply truthy_spec in Ht. rewrite !add_elem. split.
      * intros [->|[->|?]]; auto.
      * intros [?|[->|[[= ->] _]]]; auto.
    + assert (c2 = "") as ->.
      { destruct (decide (c2 = "")) as [|Hne]; [done|].
        apply truthy_spec in Hne. congruence. }
      rewrite add_elem. split.
      * intros [->|?]; auto.
      * intros [?|[->|[[= ->] ?]]]; auto. done.
  - rewrite add_elem. split.
    + intros [->|?]; auto.
    + intros [?|[->|[? _]]]; auto. done.
Qed.

Lemma fold_addTheme themes colors :
  NoDup colors ->
  NoDup (fold_left Themes.addTheme themes colors) /\
  forall c, c ∈ fold_left Themes.addTheme themes colors <->
            c ∈ colors \/
            exists theme, theme ∈ themes /\
              (c = Themes.mainColor theme \/
               (Themes.secondaryColor theme = Some c /\ c <> "")).
Proof.
  revert colors; induction themes as [|theme themes IH]; intros colors Hnd; cbn.
  - split; [done|]. intros c. split; [by left|].
    intros [?|(theme & Hin & _)]; [done|]. by apply elem_of_nil in Hin.
  - destruct (IH _ (addTheme_NoDup colors theme Hnd)) as [Hnd' Hiff].
    split; [done|]. intros c. rewrite Hiff, addTheme_elem. split.
    + intros [[?|Hth]|(theme' & Hin & Hc)]; [by left| |].
      * right. exists theme. split; [left|done].
      * right. exists theme'. split; [by right|done].
    + intros [?|(theme' & Hin & Hc)]; [by left; left|].
      apply elem_of_cons in Hin as [->|Hin]; [by left; right|].
      right. by exists theme'.
Qed.

(** C9: the colour pool is read from the third theme group alone: it holds,
    once each, the main colour of every theme of that group and every
    secondary colour there that is present and not empty, and nothing else;
    the other groups have no influence on it. *)
Theorem color_pool_is_designated_group themeSets themeGroup :
  themeSets !! 2 = Some themeGroup ->
  exists allMainColors,
    Themes.getAllMainColors themeSets = Some allMainColors /\
    NoDup allMainColors /\
    (forall c, c ∈ allMainColors <-> Themes.offers themeGroup c) /\
    forall otherSets,
      otherSets !! 2 = Some themeGroup ->
      Themes.getAllMainColors otherSets = Some allMainColors.
Proof.
  intros Hg. unfold Themes.getAllMainColors. rewrite Hg.
  eexists; split; [done|].
  destruct (fold_addTheme (Themes.themes themeGroup) [] (NoDup_nil_2))
    as [Hnd Hiff].
  split; [done|]. split.
  - intros c. rewrite Hiff. unfold Themes.offers. split.
    + intros [Hin|?]; [by apply elem_of_nil in Hin|done].
    + by right.
  - intros other ->. done.
Qed.

Lemma color_pool_is_designated_group_witness :
  let sakura := {| Themes.mainColor := "#f9a8d4";
                   Themes.secondaryColor := Some "#fbcfe8" |} in
  let ink := {| Themes.mainColor := "#fbcfe8";
                Themes.secondaryColor := None |} in
  let plain := {| Themes.themes :=
                    [{| Themes.mainColor := "#000000";
                        Themes.secondaryColor := Some "#ffffff" |}] |} in
  let themeSets := [plain; plain; {| Themes.themes := [sakura; ink] |}] in
  Themes.getAllMainColors themeSets = Some ["#f9a8d4"; "#fbcfe8"] /\
  exists allMainColors,
    Themes.getAllMainColors themeSets = Some allMainColors /\
    "#000000" ∉ allMainColors.
Proof.
  intros sakura ink plain themeSets.
  split; [reflexivity|].
  destruct (color_pool_is_designated_group themeSets
              {| Themes.themes := [sakura; ink] |} eq_refl)
    as (pool & Hpool & _ & Hiff & _).
  exists pool. split; [exact Hpool|].
  intros Hin. apply Hiff in Hin as (theme & Hth & Hc).
  apply elem_of_cons in Hth as [->|Hth].
  - cbn in Hc. destruct Hc as [Hc|[Hc _]]; discriminate Hc.
  - apply elem_of_cons in Hth as [->|Hth].
    + cbn in Hc. destruct Hc as [Hc|[Hc _]]; discriminate Hc.
    + by apply elem_of_nil in Hth.
Defined.

(** ** The shuffle and the glyph list *)

Section InsertionFacts.
Context {T : Type}.
Implicit Types (x : T) (before todo : list T).



End InsertionFacts.







Lemma promiseAll_rejects {A} (ps : list (option A)) :
  None ∈ ps -> Field.promiseAll ps = None.
Proof.
  unfold Field.promiseAll. intros Hin.
  destruct (mapM id ps) as [l|] eqn:Hl; [|done].
  apply mapM_Some_1 in Hl.
  apply list_elem_of_lookup in Hin as [i Hi].
  destruct (Forall2_lookup_l _ _ _ _ _ Hl Hi) as (y & _ & Hy).
  discriminate Hy.
Qed.

(** C8: when one of the three requests fails, the rest of [loadKanji] only
    lets the rejection go unhandled: the glyph list stays empty, no cell is
    rendered although the other payloads arrived, the view is the one
    before the load, and the three requests made at mount remain the only
    ones. *)
Theorem failed_fetch_leaves_field_empty
    sort server random level expandDecorations forceShow interactive :
  level ∈ Field.kanjiSources ->
  Field.fails server level ->
  let f0 := Field.create expandDecorations forceShow interactive in
  let f := Field.loadKanji_resume sort server random
             (Field.loadKanji_call f0) in
  Field.kanjiList f = [] /\
  Field.view_cells (Field.render f) = [] /\
  Field.render f = Field.render f0 /\
  Field.requests f = ["/kanji/N5.json"; "/kanji/N4.json"; "/kanji/N3.json"] /\
  Field.unhandledRejections f = 1 /\
  forall g, Field.loadKanji_resume sort server random g = Field.rejected g.
Proof.
  intros Hin Hfail f0 f.
  assert (Hall : Field.promiseAll
                   (map (Field.fetchLevel server) Field.kanjiSources) = None).
  { apply promiseAll_rejects. apply list_elem_of_fmap. exists level.
    split; [|done]. unfold Field.fetchLevel.
    by destruct Hfail as [-> | ->]. }
  assert (Hres : forall g,
             Field.loadKanji_resume sort server random g
             = Field.rejected g).
  { intros g. unfold Field.loadKanji_resume. by rewrite Hall. }
  unfold f. rewrite Hres. done.
Qed.

Lemma failed_fetch_leaves_field_empty_witness :
  let entry c := {| Field.kanjiChar := c |} in
  let server u :=
    if String.eqb u "/kanji/N5.json" then Field.Payload [entry "日"; entry "本"]
    else if String.eqb u "/kanji/N4.json" then Field.JsonRejects
    else Field.Payload [entry "語"] in
  let random k := (1 # Pos.of_nat (S k))%Q in
  let f := Field.loadKanji_resume Shuffle.insertionSort server random
             (Field.loadKanji_call (Field.create false true true)) in
  Field.kanjiList f = [] /\ Field.unhandledRejections f = 1.
Proof.
  intros entry server random f.
  destruct (failed_fetch_leaves_field_empty Shuffle.insertionSort
              server random "N4"
              false true true) as (Hl & _ & _ & _ & Hr & _).
  - unfold Field.kanjiSources. apply elem_of_cons. right. apply elem_of_cons.
    by left.
  - right. reflexivity.
  - split; [exact Hl | exact Hr].
Defined.

(** ** The glyph cell *)

Import Cell.

Lemma tick_idle c :
  timers c = [] -> tick c = withClock c (S (now c)) [].
Proof. intros H. unfold tick. rewrite H. done. Qed.

Lemma tick_later c d cb :
  timers c = [{| due := d; callback := cb |}] -> S (now c) < d ->
  tick c = withClock c (S (now c)) (timers c).
Proof.
  intros H Hlt. unfold tick. rewrite H. cbn. unfold isDue. cbn.
  destruct (Nat.leb_spec d (S (now c))); [lia|]. done.
Qed.

Lemma tick_fires c d cb :
  timers c = [{| due := d; callback := cb |}] -> d = S (now c) ->
  tick c = fire cb (withClock c (S (now c)) []).
Proof.
  intros H ->. unfold tick. rewrite H. cbn. unfold isDue. cbn.
  rewrite Nat.leb_refl. done.
Qed.

Ltac thresholds :=
  repeat match goal with
  | |- context [(?a <? ?b)%nat] => destruct (Nat.ltb_spec a b); try lia
  | |- context [(?a <=? ?b)%nat] => destruct (Nat.leb_spec a b); try lia
  | H : context [(?a <? ?b)%nat] |- _ => destruct (Nat.ltb_spec a b); try lia
  | H : context [(?a <=? ?b)%nat] |- _ => destruct (Nat.leb_spec a b); try lia
  end.


Ltac same_lists :=
  repeat match goal with
  | |- _ :: _ = _ :: _ => f_equal
  | |- (_, _) = (_, _) => f_equal
  | |- Build_Timer _ _ = Build_Timer _ _ => f_equal
  end; first [reflexivity | lia].

Lemma tick_InCycle t0 l0 c :
  InCycle t0 l0 c -> now c < t0 + 2300 -> InCycle t0 l0 (tick c).
Proof.
  intros (H0 & H1 & Hs & Ht & Hl) Hlt.
  remember (now c - t0) as n eqn:Hn.
  unfold phase in Hs. unfold pendingTimer in Ht. unfold InCycle.
  destruct (Nat.ltb_spec n 300);
    [|destruct (Nat.ltb_spec n 1800); [|destruct (Nat.ltb_spec n 2300); [|lia]]].
  all: match type of Ht with _ = [ {| due := ?d |} ] =>
    destruct (Nat.eq_dec d (S (now c))) as [Hd|Hd];
    [ rewrite (tick_fires _ _ _ Ht Hd) | rewrite (tick_later _ _ _ Ht); [|lia] ] end.
  all: cbn [fire setTimeout setAnimState withClock now animState timers log].
  all: rewrite ?Hs, ?Ht, ?Hl.
  all: replace (S (now c) - t0) with (S n) by lia.
  all: split; [lia|]; split; [lia|].
  all: split; [unfold phase; thresholds; reflexivity|].
  all: split; [unfold pendingTimer; thresholds; cbn [app]; same_lists|].
  all: unfold cycleLog; thresholds; rewrite <- ?app_assoc; cbn [app].
  all: do 2 f_equal; same_lists.
Qed.

Lemma fire_frame cb c :
  now (fire cb c) = now c /\ interactive (fire cb c) = interactive c /\
  mounted (fire cb c) = mounted c /\ isMounted (fire cb c) = isMounted c.
Proof. by destruct cb. Qed.

Lemma fires_frame due c :
  let c' := fold_left (fun c timer => fire (callback timer) c) due c in
  now c' = now c /\ interactive c' = interactive c /\
  mounted c' = mounted c /\ isMounted c' = isMounted c.
Proof.
  revert c; induction due as [|timer due IH]; intros c; cbn; [done|].
  destruct (IH (fire (callback timer) c)) as (-> & -> & -> & ->).
  apply fire_frame.
Qed.

Lemma tick_frame c :
  now (tick c) = S (now c) /\ interactive (tick c) = interactive c /\
  mounted (tick c) = mounted c /\ isMounted (tick c) = isMounted c.
Proof. unfold tick. by destruct (fires_frame (List.filter (isDue (S (now c))) (timers c)) (withClock c (S (now c)) (List.filter (λ timer : Timer, negb (isDue (S (now c)) timer)) (timers c)))) as (-> & -> & -> & ->). Qed.

Lemma wait_S ms c : wait (S ms) c = tick (wait ms c).
Proof. done. Qed.

Lemma wait_frame ms c :
  now (wait ms c) = now c + ms /\ interactive (wait ms c) = interactive c /\
  mounted (wait ms c) = mounted c /\ isMounted (wait ms c) = isMounted c.
Proof.
  induction ms as [|ms (IH1 & IH2 & IH3 & IH4)]; [cbn; repeat split; lia|].
  rewrite wait_S. destruct (tick_frame (wait ms c)) as (-> & -> & -> & ->).
  repeat split; try done. lia.
Qed.

Lemma wait_InCycle t0 l0 ms c :
  InCycle t0 l0 c -> now c + ms <= t0 + 2300 -> InCycle t0 l0 (wait ms c).
Proof.
  intros Hc. induction ms as [|ms IH]; intros Hle; [done|].
  rewrite wait_S. apply tick_InCycle; [apply IH; lia|].
  destruct (wait_frame ms c) as (-> & _). lia.
Qed.

Lemma phase_busy n : n < 2300 -> phase n <> Idle.
Proof. intros Hn. unfold phase. thresholds; done. Qed.

Lemma handleClick_ignored c :
  interactive c = false \/ animState c <> Idle -> handleClick c = c.
Proof.
  intros [H|H]; unfold handleClick; [by rewrite H|].
  rewrite bool_decide_eq_false_2 by done. by rewrite orb_true_r.
Qed.

Lemma click_ignored c :
  interactive c = false \/ animState c <> Idle -> click c = c.
Proof.
  intros H. unfold click. destruct (render c); [|done].
  destruct (_ && _); [|done]. by apply handleClick_ignored.
Qed.

Lemma handleClick_accepted c :
  interactive c = true -> animState c = Idle ->
  handleClick c
  = setTimeout AfterExplosion 300 (setAnimState Exploding (playClick c)).
Proof. intros Hi Hs. unfold handleClick. by rewrite Hi, Hs. Qed.

Lemma handleClick_InCycle c :
  interactive c = true -> animState c = Idle -> timers c = [] ->
  InCycle (now c) (log c) (handleClick c).
Proof.
  intros Hi Hs Ht. rewrite handleClick_accepted by done.
  unfold InCycle. cbn. rewrite Ht, Nat.sub_diag. cbn.
  repeat split; try lia. by rewrite <- !app_assoc.
Qed.

Lemma step_InCycle t0 l0 c e :
  InCycle t0 l0 c ->
  (now c - t0) + elapsed [e] < 2300 ->
  InCycle t0 l0 (step c e) /\ now (step c e) = now c + elapsed [e].
Proof.
  intros Hc Hlt. pose proof Hc as (H0 & H1 & Hs & Ht & Hl).
  destruct e as [|ms| |colors r1 r2 r3 fonts]; cbn in *.
  - rewrite click_ignored; [split; [done|lia]|].
    right. rewrite Hs. apply phase_busy. lia.
  - split; [apply wait_InCycle; [done|lia]|].
    destruct (wait_frame ms c) as (-> & _). lia.
  - split; [done|lia].
  - split; [|unfold initializeStyles_resume; destruct (negb _); cbn; lia].
    unfold initializeStyles_resume; destruct (negb _); done.
Qed.

Lemma elapsed_cons e es : elapsed (e :: es) = elapsed [e] + elapsed es.
Proof. unfold elapsed. destruct e; cbn; lia. Qed.

Lemma run_InCycle t0 l0 es c :
  InCycle t0 l0 c ->
  (now c - t0) + elapsed es < 2300 ->
  InCycle t0 l0 (run c es) /\ now (run c es) = now c + elapsed es.
Proof.
  revert c; induction es as [|e es IH]; intros c Hc Hlt.
  - cbn. split; [done|lia].
  - rewrite elapsed_cons in *. cbn [run fold_left].
    destruct (step_InCycle t0 l0 c e Hc) as [Hc' Hn]; [lia|].
    pose proof Hc as (H0 & _).
    destruct (IH (step c e) Hc') as [Hc'' Hn']; [lia|].
    split; [done|]. unfold run in Hn'. lia.
Qed.

Lemma statesSet_app l1 l2 :
  statesSet (l1 ++ l2) = (statesSet l1 ++ statesSet l2)%list.
Proof. apply omap_app. Qed.

Lemma cues_app l1 l2 : cues (l1 ++ l2) = cues l1 + cues l2.
Proof. unfold cues. by rewrite filter_app, length_app. Qed.

Lemma statesSet_cycleLog t0 n : statesSet (cycleLog t0 n) = visited n.
Proof. unfold cycleLog, visited. thresholds; done. Qed.

Lemma cues_cycleLog t0 n : cues (cycleLog t0 n) = 1.
Proof. unfold cycleLog. thresholds; done. Qed.

Lemma last_cons {A} (x : A) l s : List.last (x :: l) s = List.last l x.
Proof.
  revert x s; induction l as [|y l IH]; intros x s; [done|].
  change (List.last (x :: y :: l) s) with (List.last (y :: l) s).
  by rewrite !IH.
Qed.

Lemma follows_app s l1 l2 :
  follows s (l1 ++ l2) <-> follows s l1 /\ follows (List.last l1 s) l2.
Proof.
  revert s; induction l1 as [|x l1 IH]; intros s.
  - cbn. tauto.
  - cbn [app follows]. rewrite IH, last_cons. tauto.
Qed.

Lemma last_app_cons {A} (l : list A) x l2 d :
  List.last (l ++ x :: l2) d = List.last (x :: l2) d.
Proof.
  induction l as [|y l IH]; [done|].
  cbn [app]. rewrite last_cons, <- IH. clear IH.
  destruct l; cbn [app]; by rewrite !last_cons.
Qed.

Lemma last_app_visited l n : List.last (l ++ visited n) Idle = phase n.
Proof.
  unfold visited. cbn [app]. rewrite last_app_cons.
  unfold phase. thresholds; done.
Qed.

Lemma visited_follows n : follows Idle (visited n).
Proof. unfold visited. thresholds; cbn; tauto. Qed.

Lemma visited_one_explosion n :
  length (filter (fun s => s = Exploding) (visited n)) = 1.
Proof. unfold visited. thresholds; done. Qed.

Lemma WellLogged_cycle l0 t0 n :
  WellLogged l0 -> List.last (statesSet l0) Idle = Idle ->
  WellLogged (l0 ++ cycleLog t0 n) /\
  List.last (statesSet (l0 ++ cycleLog t0 n)) Idle = phase n.
Proof.
  intros [Hf Hc] Hlast. unfold WellLogged.
  rewrite statesSet_app, statesSet_cycleLog, cues_app, cues_cycleLog.
  rewrite follows_app, filter_app, length_app, visited_one_explosion, Hlast.
  split; [|apply last_app_visited].
  split; [split; [done|apply visited_follows]|lia].
Qed.

Lemma Steady_create char forceShow interactive delayDraw t :
  Steady (create char forceShow interactive delayDraw t).
Proof. left. repeat split. Qed.

Lemma Steady_log c :
  Steady c ->
  WellLogged (log c) /\ animState c = List.last (statesSet (log c)) Idle.
Proof.
  intros [(Hs & _ & Hw & Hl)|(t0 & l0 & Hc & _ & Hw & Hl)]; [by rewrite Hl|].
  destruct Hc as (_ & _ & Hs & _ & ->).
  destruct (WellLogged_cycle l0 t0 (now c - t0) Hw Hl) as [? ->]. done.
Qed.

Lemma Steady_idle c :
  Steady c -> animState c = Idle -> timers c = [].
Proof.
  intros [(_ & Ht & _)|(t0 & l0 & Hc & Hlt & _)] Hs; [done|].
  destruct Hc as (? & _ & Hp & _). rewrite Hp in Hs.
  apply phase_busy in Hs; [done|lia].
Qed.

Lemma InCycle_Steady t0 l0 c :
  InCycle t0 l0 c -> WellLogged l0 -> List.last (statesSet l0) Idle = Idle ->
  Steady c.
Proof.
  intros Hc Hw Hl. pose proof Hc as (H0 & H1 & Hs & Ht & Hlog).
  destruct (decide (now c < t0 + 2300)) as [Hlt|Hge].
  - right. by exists t0, l0.
  - left. replace (now c - t0) with 2300 in * by lia.
    destruct (WellLogged_cycle l0 t0 2300 Hw Hl) as [Hw' Hl'].
    rewrite Hlog. done.
Qed.

Lemma tick_Steady c : Steady c -> Steady (tick c).
Proof.
  intros [(Hs & Ht & Hw & Hl)|(t0 & l0 & Hc & Hlt & Hw & Hl)].
  - left. rewrite (tick_idle c Ht). done.
  - eapply InCycle_Steady; [by apply tick_InCycle|done..].
Qed.

Lemma step_Steady c e : Steady c -> Steady (step c e).
Proof.
  intros Hc. destruct e as [|ms| |colors r1 r2 r3 fonts]; cbn.
  - destruct (decide (interactive c = true /\ animState c = Idle))
      as [[Hi Hs]|Hno].
    + unfold click. destruct (render c); [|done]. destruct (_ && _); [|done].
      destruct (Steady_log c Hc) as [Hw Hl].
      eapply InCycle_Steady;
        [apply handleClick_InCycle; [done..|by apply Steady_idle]|done|].
      by rewrite <- Hl.
    + rewrite click_ignored; [done|].
      destruct (interactive c); [right|by left]. intros Hs. by apply Hno.
  - induction ms as [|ms IH]; [done|]. rewrite wait_S. by apply tick_Steady.
  - done.
  - unfold initializeStyles_resume. by destruct (negb _).
Qed.

Lemma run_Steady c es : Steady c -> Steady (run c es).
Proof.
  revert c; induction es as [|e es IH]; intros c Hc; [done|].
  apply IH, step_Steady, Hc.
Qed.

(** C1: at any point of any run of a cell, the states asked for so far walk
    the cycle exploding, hidden, fading-in, idle one step at a time, with
    one audio cue per explosion.  A click on a non-interactive cell or
    outside [Idle] changes nothing at all.  A click on an interactive cell
    in [Idle] plays one cue, asks for [Exploding] and sets the first timer;
    whatever clicks and other events come during the next 2300 ms, no
    further cue is played and the states asked for are exactly
    [Exploding], [Hidden], [FadingIn], [Idle], in this order. *)
Theorem click_starts_one_cycle
    char forceShow interactive delayDraw t events :
  let c := Cell.run (Cell.create char forceShow interactive delayDraw t)
             events in
  Cell.WellLogged (Cell.log c) /\
  Cell.animState c = List.last (Cell.statesSet (Cell.log c)) Cell.Idle /\
  (Cell.interactive c = false \/ Cell.animState c <> Cell.Idle ->
   Cell.handleClick c = c /\ Cell.click c = c) /\
  (Cell.interactive c = true -> Cell.animState c = Cell.Idle ->
   let c1 := Cell.handleClick c in
   Cell.animState c1 = Cell.Exploding /\
   Cell.log c1
   = (Cell.log c ++
      [(Cell.now c, Cell.PlayClick);
       (Cell.now c, Cell.SetAnimState Cell.Exploding);
       (Cell.now c, Cell.SetTimeout Cell.AfterExplosion 300)])%list /\
   forall later,
     Cell.elapsed later < 2300 ->
     let c2 := Cell.run c1 later in
     Cell.animState c2 = Cell.phase (Cell.elapsed later) /\
     Cell.statesSet (Cell.log c2)
     = (Cell.statesSet (Cell.log c)
        ++ Cell.visited (Cell.elapsed later))%list /\
     Cell.cues (Cell.log c2) = S (Cell.cues (Cell.log c)) /\
     let c3 := Cell.wait (2300 - Cell.elapsed later) c2 in
     Cell.animState c3 = Cell.Idle /\
     Cell.statesSet (Cell.log c3)
     = (Cell.statesSet (Cell.log c)
        ++ [Cell.Exploding; Cell.Hidden; Cell.FadingIn; Cell.Idle])%list /\
     Cell.cues (Cell.log c3) = S (Cell.cues (Cell.log c))).
Proof.
  intros c.
  assert (Hst : Steady c) by apply run_Steady, Steady_create.
  destruct (Steady_log c Hst) as [Hw Hl].
  split; [done|]. split; [done|].
  split; [intros H; split; [by apply handleClick_ignored|by apply click_ignored]|].
  intros Hi Hs c1.
  pose proof (handleClick_InCycle c Hi Hs (Steady_idle c Hst Hs)) as Hc1.
  fold c1 in Hc1.
  assert (Hnow : now c1 = now c).
  { unfold c1. by rewrite handleClick_accepted. }
  split; [unfold c1; by rewrite handleClick_accepted|].
  split; [unfold c1; rewrite handleClick_accepted by done; cbn;
          by rewrite <- !app_assoc|].
  intros later Hlt c2.
  destruct (run_InCycle (now c) (log c) later c1 Hc1) as [Hc2 Hn2]; [lia|].
  fold c2 in Hc2, Hn2.
  pose proof Hc2 as (_ & _ & Hs2 & _ & Hl2).
  replace (now c2 - now c) with (elapsed later) in * by lia.
  split; [done|].
  split; [by rewrite Hl2, statesSet_app, statesSet_cycleLog|].
  split; [rewrite Hl2, cues_app, cues_cycleLog; lia|].
  intros c3.
  assert (Hc3 : InCycle (now c) (log c) c3)
    by (apply wait_InCycle; [done|lia]).
  destruct (wait_frame (2300 - elapsed later) c2) as (Hn3 & _).
  fold c3 in Hn3.
  destruct Hc3 as (_ & _ & Hs3 & _ & Hl3).
  replace (now c3 - now c) with 2300 in * by lia.
  split; [done|].
  split; [by rewrite Hl3, statesSet_app, statesSet_cycleLog|].
  rewrite Hl3, cues_app, cues_cycleLog; lia.
Qed.


(** Two more clicks, 100 ms and 350 ms into the cycle, change nothing. *)
Lemma click_starts_one_cycle_witness :
  let c := Cell.run (Cell.create "日" false true 0 0)
             [Cell.StylesReady ["#f9a8d4"] 0 0 0 []; Cell.Wait 40] in
  let later := [Cell.Wait 100; Cell.Click; Cell.Wait 250; Cell.Click] in
  Cell.animState (Cell.handleClick c) = Cell.Exploding /\
  Cell.cues (Cell.log (Cell.run (Cell.handleClick c) later))
  = S (Cell.cues (Cell.log c)) /\
  Cell.statesSet
    (Cell.log (Cell.wait (2300 - Cell.elapsed later)
                 (Cell.run (Cell.handleClick c) later)))
  = (Cell.statesSet (Cell.log c)
     ++ [Cell.Exploding; Cell.Hidden; Cell.FadingIn; Cell.Idle])%list.
Proof.
  intros c later.
  pose proof (click_starts_one_cycle "日" false true 0 0
                [Cell.StylesReady ["#f9a8d4"] 0 0 0 []; Cell.Wait 40])
    as (_ & _ & _ & Hacc).
  assert (Hi : Cell.interactive c = true) by (vm_compute; reflexivity).
  assert (Hs : Cell.animState c = Cell.Idle) by (vm_compute; reflexivity).
  destruct (Hacc Hi Hs) as (Hexp & _ & Hlater).
  assert (Hlt : Cell.elapsed later < 2300) by (vm_compute; lia).
  destruct (Hlater later Hlt) as (_ & _ & Hcues & _ & H3 & _).
  split; [exact Hexp|]. split; [exact Hcues | exact H3].
Defined.

(** [getAnimationStyle] on an interactive cell. *)
Lemma getAnimationStyle_interactive c :
  Cell.interactive c = true ->
  Cell.getAnimationStyle c
  = match Cell.animState c with
    | Cell.Exploding => Cell.Animation "explode 300ms ease-out forwards"
    | Cell.Hidden => Cell.Opacity 0
    | Cell.FadingIn => Cell.Animation "fadeIn 500ms ease-in forwards"
    | Cell.Idle => Cell.NoStyle
    end.
Proof. intros Hi. unfold Cell.getAnimationStyle. by rewrite Hi. Qed.

(** C5: after a click accepted at time [t0] the cell is exploding until
    [t0 + 300], hidden with opacity 0 until [t0 + 1800], fading in until
    [t0 + 2300] and then idle with no style and no timer left, so that the
    next click is accepted; the timers are set with the delays 300, 1500 and
    500, each by the callback of the one before. *)
Theorem cycle_delays char forceShow interactive delayDraw t events :
  let c := Cell.run (Cell.create char forceShow interactive delayDraw t)
             events in
  Cell.interactive c = true -> Cell.animState c = Cell.Idle ->
  let c1 := Cell.handleClick c in
  let t0 := Cell.now c in
  Cell.log (Cell.wait 2300 c1)
  = (Cell.log c ++
     [(t0, Cell.PlayClick);
      (t0, Cell.SetAnimState Cell.Exploding);
      (t0, Cell.SetTimeout Cell.AfterExplosion 300);
      (t0 + 300, Cell.SetAnimState Cell.Hidden);
      (t0 + 300, Cell.SetTimeout Cell.AfterHidden 1500);
      (t0 + 1800, Cell.SetAnimState Cell.FadingIn);
      (t0 + 1800, Cell.SetTimeout Cell.AfterFadeIn 500);
      (t0 + 2300, Cell.SetAnimState Cell.Idle)])%list /\
  (forall d, d < 300 ->
     Cell.animState (Cell.wait d c1) = Cell.Exploding /\
     Cell.getAnimationStyle (Cell.wait d c1)
     = Cell.Animation "explode 300ms ease-out forwards") /\
  (forall d, 300 <= d -> d < 1800 ->
     Cell.animState (Cell.wait d c1) = Cell.Hidden /\
     Cell.getAnimationStyle (Cell.wait d c1) = Cell.Opacity 0) /\
  (forall d, 1800 <= d -> d < 2300 ->
     Cell.animState (Cell.wait d c1) = Cell.FadingIn /\
     Cell.getAnimationStyle (Cell.wait d c1)
     = Cell.Animation "fadeIn 500ms ease-in forwards") /\
  Cell.animState (Cell.wait 2300 c1) = Cell.Idle /\
  Cell.getAnimationStyle (Cell.wait 2300 c1) = Cell.NoStyle /\
  Cell.timers (Cell.wait 2300 c1) = [] /\
  Cell.animState (Cell.handleClick (Cell.wait 2300 c1)) = Cell.Exploding.
Proof.
  intros c Hi Hs c1 t0.
  assert (Hst : Steady c) by apply run_Steady, Steady_create.
  pose proof (handleClick_InCycle c Hi Hs (Steady_idle c Hst Hs)) as Hc1.
  fold c1 t0 in Hc1.
  assert (Hn1 : now c1 = t0).
  { unfold c1. by rewrite handleClick_accepted. }
  assert (Hi1 : Cell.interactive c1 = true).
  { unfold c1. by rewrite handleClick_accepted. }
  assert (Hat : forall d, d <= 2300 ->
            animState (wait d c1) = phase d /\
            timers (wait d c1) = pendingTimer t0 d /\
            log (wait d c1) = (log c ++ cycleLog t0 d)%list /\
            Cell.interactive (wait d c1) = true).
  { intros d Hd.
    destruct (wait_InCycle t0 (log c) d c1 Hc1) as (_ & _ & H1 & H2 & H3);
      [lia|].
    destruct (wait_frame d c1) as (Hn & Hint & _).
    replace (now (wait d c1) - t0) with d in * by lia.
    rewrite Hint. done. }
  assert (Hstyle : forall d, d <= 2300 ->
            animState (wait d c1) = phase d /\
            getAnimationStyle (wait d c1)
            = match phase d with
              | Exploding => Animation "explode 300ms ease-out forwards"
              | Hidden => Opacity 0
              | FadingIn => Animation "fadeIn 500ms ease-in forwards"
              | Idle => NoStyle
              end).
  { intros d Hd. destruct (Hat d Hd) as (H1 & _ & _ & H4).
    by rewrite getAnimationStyle_interactive, H1. }
  split; [by destruct (Hat 2300) as (_ & _ & -> & _)|].
  split.
  { intros d Hd. destruct (Hstyle d) as [-> ->]; [lia|].
    unfold phase. by destruct (Nat.ltb_spec d 300); [|lia]. }
  split.
  { intros d Hd1 Hd2. destruct (Hstyle d) as [-> ->]; [lia|].
    unfold phase. destruct (Nat.ltb_spec d 300); [lia|].
    by destruct (Nat.ltb_spec d 1800); [|lia]. }
  split.
  { intros d Hd1 Hd2. destruct (Hstyle d) as [-> ->]; [lia|].
    unfold phase. destruct (Nat.ltb_spec d 300); [lia|].
    destruct (Nat.ltb_spec d 1800); [lia|].
    by destruct (Nat.ltb_spec d 2300); [|lia]. }
  destruct (Hat 2300) as (H1 & H2 & _ & H4); [lia|].
  destruct (Hstyle 2300) as [_ H5]; [lia|].
  split; [exact H1|]. split; [exact H5|]. split; [exact H2|].
  by rewrite handleClick_accepted.
Qed.

Lemma cycle_delays_witness :
  let c := Cell.run (Cell.create "日" false true 0 0)
             [Cell.StylesReady ["#f9a8d4"] 0 0 0 []; Cell.Wait 40] in
  Cell.log (Cell.wait 2300 (Cell.handleClick c))
  = (Cell.log c ++
     [(Cell.now c, Cell.PlayClick);
      (Cell.now c, Cell.SetAnimState Cell.Exploding);
      (Cell.now c, Cell.SetTimeout Cell.AfterExplosion 300);
      (Cell.now c + 300, Cell.SetAnimState Cell.Hidden);
      (Cell.now c + 300, Cell.SetTimeout Cell.AfterHidden 1500);
      (Cell.now c + 1800, Cell.SetAnimState Cell.FadingIn);
      (Cell.now c + 1800, Cell.SetTimeout Cell.AfterFadeIn 500);
      (Cell.now c + 2300, Cell.SetAnimState Cell.Idle)])%list /\
  Cell.getAnimationStyle (Cell.wait 300 (Cell.handleClick c))
  = Cell.Opacity 0.
Proof.
  intros c.
  assert (Hi : Cell.interactive c = true) by (vm_compute; reflexivity).
  assert (Hs : Cell.animState c = Cell.Idle) by (vm_compute; reflexivity).
  destruct (cycle_delays "日" false true 0 0
              [Cell.StylesReady ["#f9a8d4"] 0 0 0 []; Cell.Wait 40] Hi Hs)
    as (Hlog & _ & Hhidden & _).
  split; [exact Hlog|].
  destruct (Hhidden 300) as [_ Hstyle]; [lia|lia|]. exact Hstyle.
Defined.

(** C4, on the code: a cell clicked at 0 and unmounted at 100.  The three
    timer callbacks run at 300, 1800 and 2300 all the same: each calls
    [setAnimState] and the first two set the next timer.  None consults
    [isMounted], which only [initializeStyles] reads. *)
Lemma timers_fire_on_unmounted_cell :
  let c := Cell.run (Cell.create "日" false true 0 0)
             [Cell.StylesReady ["#f9a8d4"] 0 0 0 []; Cell.Click;
              Cell.Wait 100; Cell.Unmount; Cell.Wait 2200] in
  Cell.isMounted c = false /\
  Cell.log c
  = [(0, Cell.PlayClick);
     (0, Cell.SetAnimState Cell.Exploding);
     (0, Cell.SetTimeout Cell.AfterExplosion 300);
     (300, Cell.SetAnimState Cell.Hidden);
     (300, Cell.SetTimeout Cell.AfterHidden 1500);
     (1800, Cell.SetAnimState Cell.FadingIn);
     (1800, Cell.SetTimeout Cell.AfterFadeIn 500);
     (2300, Cell.SetAnimState Cell.Idle)].
Proof. vm_compute. split; reflexivity. Qed.

Lemma no_load_started env events :
  Fonts.promises (Fonts.run env events) = [] ->
  Fonts.run env events = Fonts.initial.
Proof.
  intros H. destruct (run_shape env events); cbn in H; done.
Qed.

(** C6: while no load has started, a call without [forceLoad] outside
    production returns the empty list at once and imports nothing, and a
    cell with [forceShow = false] initialised from that result has the empty
    font class and renders with no class from a font; a call with
    [forceLoad] starts the import whatever the mode. *)
Theorem unforced_load_skipped_outside_production env events :
  let s := Fonts.run env events in
  Fonts.promises s = [] ->
  (Fonts.isProduction env = false ->
   Fonts.loadDecorationFonts env false s = (Fonts.Now [], s) /\
   forall char interactive delayDraw t allMainColors r1 r2 r3,
     let c := Cell.create char false interactive delayDraw t in
     Cell.initializeStyles_call env c s
     = (Cell.withAwaiting c (Some (Fonts.Now [])), s) /\
     Cell.awaited s (Fonts.Now []) = Some [] /\
     let c' := Cell.initializeStyles_resume allMainColors r1 r2 r3 []
                 (Cell.withAwaiting c (Some (Fonts.Now []))) in
     Cell.fontClass (Cell.styles c') = "" /\
     exists span,
       Cell.render c' = Some span /\
       Cell.span_class span
       = Cell.clsx
           [Some "text-4xl";
            if interactive then None else Cell.animation (Cell.styles c');
            if interactive then Some "cursor-pointer" else None]) /\
  Fonts.loadDecorationFonts env true s
  = (Fonts.Shared 0,
     {| Fonts.fontsCache := None; Fonts.fontsLoadingPromise := Some 0;
        Fonts.promises := [Fonts.Pending]; Fonts.cacheWrites := 0 |}).
Proof.
  intros s Hs. unfold s in *. rewrite (no_load_started env events Hs).
  split.
  - intros Henv.
    assert (Hload : Fonts.loadDecorationFonts env false Fonts.initial
                    = (Fonts.Now [], Fonts.initial)).
    { unfold Fonts.loadDecorationFonts. by rewrite Henv. }
    split; [done|].
    intros char interactive delayDraw t colors r1 r2 r3.
    split; [unfold Cell.initializeStyles_call; cbn; by rewrite Hload|].
    split; [done|].
    cbn. split; [done|]. eexists; split; [done|].
    by destruct interactive.
  - unfold Fonts.loadDecorationFonts. by rewrite andb_false_r.
Qed.

Lemma unforced_load_skipped_outside_production_witness :
  let s := Fonts.run "development" [Fonts.Call false; Fonts.Call false] in
  Fonts.loadDecorationFonts "development" false s = (Fonts.Now [], s) /\
  Fonts.loadDecorationFonts "development" true s
  = (Fonts.Shared 0,
     {| Fonts.fontsCache := None; Fonts.fontsLoadingPromise := Some 0;
        Fonts.promises := [Fonts.Pending]; Fonts.cacheWrites := 0 |}).
Proof.
  intros s.
  destruct (unforced_load_skipped_outside_production "development"
              [Fonts.Call false; Fonts.Call false] eq_refl) as [Hskip Hforce].
  destruct (Hskip eq_refl) as [Hnow _].
  split; [exact Hnow | exact Hforce].
Defined.

(** *** Further properties of the cell *)
Lemma fires_styles due c :
  styles (fold_left (fun c timer => fire (callback timer) c) due c) = styles c.
Proof.
  revert c; induction due as [|timer due IH]; intros c; cbn; [done|].
  rewrite IH. by destruct (callback timer).
Qed.

Lemma wait_styles ms c : styles (wait ms c) = styles c.
Proof.
  induction ms as [|ms IH]; [done|].
  rewrite wait_S, <- IH. unfold tick. by rewrite fires_styles.
Qed.

Lemma step_unmounted c e :
  isMounted c = false ->
  isMounted (step c e) = false /\ styles (step c e) = styles c /\
  mounted (step c e) = mounted c.
Proof.
  intros Hm. destruct e as [|ms| |colors r1 r2 r3 fonts]; cbn.
  - unfold click. destruct (render c); [|done]. by rewrite Hm.
  - destruct (wait_frame ms c) as (_ & _ & -> & ->).
    by rewrite wait_styles.
  - done.
  - unfold initializeStyles_resume. by rewrite Hm.
Qed.

(** X1: once the effect's cleanup has run, nothing changes the style or
    the [mounted] slot of the cell any more: fonts that arrive late are
    dropped by the [isMounted] test of [initializeStyles], and a cell torn
    down before its styles were set never shows. *)
Theorem unmounted_cell_keeps_styles c events :
  isMounted c = false ->
  let c' := run c events in
  isMounted c' = false /\ styles c' = styles c /\ mounted c' = mounted c /\
  (mounted c = false -> render c' = None).
Proof.
  revert c; induction events as [|e events IH]; intros c Hm; cbn.
  - repeat split; try done. intros H. unfold render. by rewrite H.
  - destruct (step_unmounted c e Hm) as (Hm' & Hs & Hr).
    destruct (IH (step c e) Hm') as (H1 & H2 & H3 & H4).
    unfold run in *. rewrite H2, H3, Hs, Hr.
    repeat split; try done. intros H. apply H4. by rewrite Hr.
Qed.

Lemma unmounted_cell_keeps_styles_witness :
  let c := unmount (create "日" true true 0 0) in
  let c' := run c [Click; Wait 10;
                   StylesReady ["#f9a8d4"] 0 0 0
                     [{| Fonts.name := "Yuji Mai";
                         Fonts.className := "font-yuji" |}];
                   Click] in
  fontClass (styles c') = "" /\ render c' = None.
Proof.
  intros c c'.
  destruct (unmounted_cell_keeps_styles c
              [Click; Wait 10;
               StylesReady ["#f9a8d4"] 0 0 0
                 [{| Fonts.name := "Yuji Mai";
                     Fonts.className := "font-yuji" |}];
               Click] eq_refl) as (_ & Hs & _ & Hr).
  split; [unfold c'; rewrite Hs; reflexivity | apply Hr; reflexivity].
Defined.

Lemma wait_silent ms c : Silent c -> Silent (wait ms c).
Proof.
  intros Hc. induction ms as [|ms IH]; [done|].
  rewrite wait_S. destruct IH as (Hl & Ht & Hs).
  rewrite (tick_idle _ Ht). done.
Qed.

Lemma step_silent c e :
  interactive c = false \/ (mounted c = false /\ isStylesReady e = false) ->
  Silent c ->
  Silent (step c e) /\ interactive (step c e) = interactive c /\
  (isStylesReady e = false -> mounted (step c e) = mounted c).
Proof.
  intros Hwhy Hc.
  destruct e as [|ms| |colors r1 r2 r3 fonts]; cbn.
  - assert (click c = c) as ->; [|done].
    destruct Hwhy as [Hi|[Hm _]]; [apply click_ignored; by left|].
    unfold click, render. by rewrite Hm.
  - destruct (wait_frame ms c) as (_ & -> & -> & _).
    split; [by apply wait_silent|done].
  - done.
  - unfold initializeStyles_resume. destruct (negb _); cbn; [done|].
    split; [done|]. split; [done|]. intros [=].
Qed.

(** X2: a cell that is not interactive, or whose styles have not been set
    yet (it renders nothing), plays no cue, asks for no state and sets no
    timer, whatever clicks arrive and however long one waits. *)
Theorem no_call_unless_interactive_and_rendered
    char forceShow interactive delayDraw t events :
  interactive = false \/ Forall (fun e => isStylesReady e = false) events ->
  let c := run (create char forceShow interactive delayDraw t) events in
  log c = [] /\ timers c = [] /\ animState c = Idle.
Proof.
  intros Hwhy.
  assert (H : forall c0,
             Silent c0 ->
             Cell.interactive c0 = false
             \/ (mounted c0 = false
                 /\ Forall (fun e => isStylesReady e = false) events) ->
             Silent (run c0 events)).
  { clear. induction events as [|e events IH]; intros c0 Hc Hwhy; [done|].
    cbn. assert (Hstep : Cell.interactive c0 = false
                 \/ (mounted c0 = false /\ isStylesReady e = false)).
    { destruct Hwhy as [?|[? Hall]]; [by left|right].
      split; [done|]. by inversion Hall. }
    destruct (step_silent c0 e Hstep Hc) as (Hs & Hi & Hm).
    apply IH; [done|].
    destruct Hwhy as [?|[? Hall]]; [left; congruence|right].
    inversion Hall; subst. split; [by rewrite Hm|done]. }
  apply H; [done|]. destruct Hwhy as [->|?]; [by left|by right].
Qed.

Lemma no_call_unless_interactive_and_rendered_witness :
  let c := run (create "日" false false 0 0)
             [StylesReady ["#f9a8d4"] 0 0 0 []; Click; Wait 500; Click] in
  log c = [] /\ animState c = Idle.
Proof.
  intros c.
  destruct (no_call_unless_interactive_and_rendered "日" false false 0 0
              [StylesReady ["#f9a8d4"] 0 0 0 []; Click; Wait 500; Click])
    as (Hl & _ & Hs); [left; reflexivity|].
  split; [exact Hl | exact Hs].
Defined.

(** X3: a cell never has two timers pending.  A timer is pending exactly
    when the cell is not idle, and it is due later than now and at most
    1500 ms from now. *)
Theorem one_timer_at_a_time char forceShow interactive delayDraw t events :
  let c := run (create char forceShow interactive delayDraw t) events in
  length (timers c) <= 1 /\
  (timers c = [] <-> animState c = Idle) /\
  forall timer, timer ∈ timers c ->
    now c < due timer /\ due timer <= now c + 1500.
Proof.
  intros c.
  assert (Hst : Steady c) by apply run_Steady, Steady_create.
  destruct Hst as [(Hs & Ht & _)|(t0 & l0 & Hc & Hlt & _)].
  - rewrite Ht, Hs. cbn. split; [lia|]. split; [done|].
    intros timer Hin. by apply elem_of_nil in Hin.
  - destruct Hc as (H0 & _ & Hs & Ht & _).
    rewrite Ht, Hs. unfold pendingTimer, phase.
    destruct (Nat.ltb_spec (now c - t0) 300);
      [|destruct (Nat.ltb_spec (now c - t0) 1800);
        [|destruct (Nat.ltb_spec (now c - t0) 2300); [|lia]]].
    all: cbn [length]; split; [lia|]; split; [split; discriminate|].
    all: intros timer ->%list_elem_of_singleton; cbn [due]; lia.
Qed.

Lemma wait_add a b c : wait (a + b) c = wait b (wait a c).
Proof. unfold wait. rewrite Nat.add_comm. apply Nat.iter_add. Qed.

Lemma wait_rest ms c :
  animState c = Idle -> timers c = [] ->
  animState (wait ms c) = Idle /\ timers (wait ms c) = [].
Proof.
  intros Hs Ht. induction ms as [|ms [IH1 IH2]]; [done|].
  rewrite wait_S, (tick_idle _ IH2). done.
Qed.

(** X4: 2300 ms after any run of events, with no click in between, no
    timer is left, mounted or not, and a cell that is still mounted is
    idle. *)
Theorem cell_comes_to_rest
    char forceShow interactive delayDraw t events ms :
  2300 <= ms ->
  let c := wait ms (run (create char forceShow interactive delayDraw t)
                      events) in
  timers c = [] /\ (isMounted c = true -> animState c = Idle).
Proof.
  intros Hms.
  set (c0 := run (create char forceShow interactive delayDraw t) events).
  assert (Hst : Steady c0) by apply run_Steady, Steady_create.
  enough (animState (wait ms c0) = Idle /\ timers (wait ms c0) = [])
    as [Hs Ht] by done.
  destruct Hst as [(Hs & Ht & _)|(t0 & l0 & Hc & Hlt & _)].
  - by apply wait_rest.
  - pose proof Hc as (H0 & _).
    replace ms with ((t0 + 2300 - now c0) + (ms - (t0 + 2300 - now c0)))
      by lia.
    rewrite wait_add.
    pose proof (wait_InCycle t0 l0 (t0 + 2300 - now c0) c0 Hc) as Hc'.
    destruct (wait_frame (t0 + 2300 - now c0) c0) as (Hn & _).
    destruct Hc' as (_ & _ & Hs & Ht & _); [lia|].
    replace (now (wait (t0 + 2300 - now c0) c0) - t0) with 2300 in * by lia.
    by apply wait_rest.
Qed.

Lemma cell_comes_to_rest_witness :
  let c := wait 2300 (run (create "日" false true 0 0)
                        [StylesReady ["#f9a8d4"] 0 0 0 []; Click; Wait 700]) in
  timers c = [] /\ animState c = Idle.
Proof.
  intros c.
  destruct (cell_comes_to_rest "日" false true 0 0
              [StylesReady ["#f9a8d4"] 0 0 0 []; Click; Wait 700] 2300)
    as [Ht Hs]; [lia|].
  split; [exact Ht|]. apply Hs. vm_compute. reflexivity.
Defined.

Lemma step_now c e : now (step c e) = now c + elapsed [e].
Proof.
  destruct e as [|ms| |colors r1 r2 r3 fonts]; cbn.
  - unfold click. destruct (render c); [|lia]. destruct (_ && _); [|lia].
    unfold handleClick. destruct (_ || _); cbn; lia.
  - destruct (wait_frame ms c) as (-> & _). lia.
  - lia.
  - unfold initializeStyles_resume. destruct (negb _); cbn; lia.
Qed.

Lemma run_now es c : now (run c es) = now c + elapsed es.
Proof.
  revert c; induction es as [|e es IH]; intros c; [cbn; lia|].
  rewrite elapsed_cons. cbn [run fold_left]. unfold run in IH.
  rewrite IH, step_now. lia.
Qed.

Lemma InCycle_Paced t t0 l0 c :
  InCycle t0 l0 c -> t <= t0 -> 2300 * cues l0 <= t0 - t -> Paced t c.
Proof.
  intros Hc Ht Hl. pose proof Hc as (H0 & H1 & Hs & Htm & Hlog).
  destruct (decide (now c < t0 + 2300)) as [Hlt|Hge].
  - right. by exists t0, l0.
  - left. replace (now c - t0) with 2300 in * by lia.
    split; [by rewrite Hs|]. split; [by rewrite Htm|]. split; [lia|].
    rewrite Hlog, cues_app, cues_cycleLog. lia.
Qed.

Lemma tick_Paced t c : Paced t c -> Paced t (tick c).
Proof.
  intros [(Hs & Ht & H0 & Hl)|(t0 & l0 & Hc & Hlt & H0 & Hl)].
  - left. rewrite (tick_idle c Ht).
    cbn [withClock animState timers now log].
    split; [done|]. split; [done|]. split; lia.
  - eapply InCycle_Paced; [by apply tick_InCycle|done..].
Qed.

Lemma step_Paced t c e : Paced t c -> Paced t (step c e).
Proof.
  intros Hc. destruct e as [|ms| |colors r1 r2 r3 fonts]; cbn.
  - destruct (decide (interactive c = true /\ animState c = Idle))
      as [[Hi Hs]|Hno].
    + unfold click. destruct (render c); [|done]. destruct (_ && _); [|done].
      destruct Hc as [(_ & Ht & H0 & Hl)|(t0 & l0 & Hc & Hlt & _)].
      * eapply InCycle_Paced; [by apply handleClick_InCycle|done..].
      * destruct Hc as (? & _ & Hp & _). rewrite Hp in Hs.
        apply phase_busy in Hs; [done|lia].
    + rewrite click_ignored; [done|].
      destruct (interactive c); [right|by left]. intros Hs. by apply Hno.
  - induction ms as [|ms IH]; [done|]. rewrite wait_S. by apply tick_Paced.
  - done.
  - unfold initializeStyles_resume. by destruct (negb _).
Qed.

Lemma Paced_bound t c : Paced t c -> 2300 * cues (log c) <= now c - t + 2300.
Proof.
  intros [(_ & _ & H0 & Hl)|(t0 & l0 & Hc & Hlt & H0 & Hl)]; [lia|].
  destruct Hc as (? & _ & _ & _ & ->).
  rewrite cues_app, cues_cycleLog. lia.
Qed.

(** X5: clicking fast does not multiply the audio cues: in a run that
    lasts [d] ms a cell plays at most [1 + d / 2300] of them. *)
Theorem one_cue_per_cycle char forceShow interactive delayDraw t events :
  let c := run (create char forceShow interactive delayDraw t) events in
  2300 * cues (log c) <= elapsed events + 2300.
Proof.
  intros c.
  assert (Hp : Paced t c).
  { assert (H : forall c0, Paced t c0 -> Paced t (run c0 events)).
    { clear. induction events as [|e events IH]; intros c0 Hc; [done|].
      apply IH, step_Paced, Hc. }
    apply H. left. split; [done|]. split; [done|].
    change (cues (log (create char forceShow interactive delayDraw t)))
      with 0.
    cbn [create now]. lia. }
  apply Paced_bound in Hp. unfold c in Hp. rewrite run_now in Hp.
  cbn [create now] in Hp. unfold c. lia.
Qed.

(** *** Further properties of the field, the styles and the loader *)
(** X6: when the field was unmounted before the requests settled, the rest
    of [loadKanji] stores nothing: list, requests and view stay as they
    were, and if the three requests succeeded the field is untouched. *)
Theorem unmounted_field_keeps_list sort server random f :
  Field.isMounted f = false ->
  let f' := Field.loadKanji_resume sort server random f in
  Field.kanjiList f' = Field.kanjiList f /\
  Field.requests f' = Field.requests f /\
  Field.render f' = Field.render f /\
  ((forall level, level ∈ Field.kanjiSources ->
      exists data, server (Field.url level) = Field.Payload data) ->
   f' = f).
Proof.
  intros Hm f'. unfold f', Field.loadKanji_resume. rewrite Hm. cbn [negb].
  destruct (Field.promiseAll _) as [results|] eqn:Hall; [done|].
  repeat split. intros Hok. exfalso.
  unfold Field.promiseAll in Hall. apply mapM_None in Hall.
  apply Exists_exists in Hall as (x & Hx & Hnone).
  apply list_elem_of_In, in_map_iff in Hx as (level & <- & Hlevel).
  apply list_elem_of_In in Hlevel.
  destruct (Hok level Hlevel) as [data Hdata].
  unfold Field.fetchLevel in Hnone. rewrite Hdata in Hnone.
  discriminate Hnone.
Qed.

Lemma unmounted_field_keeps_list_witness :
  let entry c := {| Field.kanjiChar := c |} in
  let server u := Field.Payload [entry "日"; entry "本"] in
  let random k := (1 # Pos.of_nat (S k))%Q in
  let f := Field.unmount (Field.loadKanji_call (Field.create true false true)) in
  Field.loadKanji_resume Shuffle.insertionSort server random f = f /\
  Field.kanjiList (Field.loadKanji_resume Shuffle.insertionSort server random f)
  = [].
Proof.
  intros entry server random f.
  destruct (unmounted_field_keeps_list Shuffle.insertionSort server random f
              eq_refl)
    as (Hl & _ & _ & Hsame).
  split; [|exact Hl].
  apply Hsame. intros level _. by eexists.
Defined.




Lemma step_started env s e :
  Shape s -> length (Fonts.promises s) = 1 ->
  length (Fonts.promises (Fonts.step env s e)) = 1.
Proof.
  intros Hs Hl. pose proof (step_shape env s e Hs) as Hs'.
  destruct e as [force|p outcome]; cbn in *.
  - unfold Fonts.loadDecorationFonts.
    destruct (negb _ && negb _); [done|].
    destruct Hs; cbn in *; done.
  - unfold Fonts.importSettles.
    destruct (Fonts.promises s !! p) as [[| |]|]; try done.
    destruct outcome; cbn; by rewrite length_insert.
Qed.

Lemma fold_started env events s :
  Shape s -> length (Fonts.promises s) = 1 ->
  length (Fonts.promises (fold_left (Fonts.step env) events s)) = 1.
Proof.
  revert s; induction events as [|e events IH]; intros s Hs Hl; [done|].
  cbn. apply IH; [by apply step_shape|by apply step_started].
Qed.

(** X8: the import is made exactly when some call came in production or
    with [forceLoad]; calls outside production without it, however many,
    import nothing. *)
Theorem import_made_iff_eligible_call env events :
  length (Fonts.promises (Fonts.run env events))
  = if existsb (Fonts.eligible env) events then 1 else 0.
Proof.
  unfold Fonts.run. induction events as [|e events IH]; [done|].
  cbn [fold_left existsb].
  destruct (Fonts.eligible env e) eqn:He; cbn [orb].
  - apply fold_started; [apply step_shape; constructor|].
    destruct e as [force|]; [|done]. cbn in *.
    unfold Fonts.loadDecorationFonts.
    destruct (Fonts.isProduction env), force; done.
  - assert (Fonts.step env Fonts.initial e = Fonts.initial) as ->; [|done].
    destruct e as [force|p outcome]; cbn in *.
    + unfold Fonts.loadDecorationFonts.
      destruct (Fonts.isProduction env), force; done.
    + by destruct p.
Qed.

(** Once the cache is filled, no event changes the loader. *)
Lemma cached_stays env events fonts :
  let cached :=
    {| Fonts.fontsCache := Some fonts; Fonts.fontsLoadingPromise := None;
       Fonts.promises := [Fonts.Fulfilled fonts]; Fonts.cacheWrites := 1 |} in
  fold_left (Fonts.step env) events cached = cached.
Proof.
  induction events as [|e events IH]; cbn; [done|].
  destruct e as [force|p outcome]; cbn.
  - split_guard env force; apply IH.
  - destruct p as [|p]; cbn; apply IH.
Qed.

(** X9: once the import has succeeded, the cache holds the list of the
    module for the rest of the process, the handle stays cleared, the
    cache was written once, and whoever waits on the shared promise gets
    that list. *)
Theorem resolved_import_is_shared env pre post p fonts :
  Fonts.inFlight (Fonts.run env pre) p ->
  let s := Fonts.run env (pre ++ Fonts.Settle p (Some fonts) :: post) in
  Fonts.fontsCache s = Some fonts /\
  Fonts.fontsLoadingPromise s = None /\
  awaited s (Fonts.Shared p) = Some fonts /\
  length (Fonts.promises s) = 1 /\
  Fonts.cacheWrites s = 1.
Proof.
  intros Hp s.
  destruct (inFlight_loading _ _ (run_shape env pre) Hp) as [-> Heq].
  assert (Hs : s = {| Fonts.fontsCache := Some fonts;
                      Fonts.fontsLoadingPromise := None;
                      Fonts.promises := [Fonts.Fulfilled fonts];
                      Fonts.cacheWrites := 1 |}).
  { unfold s. rewrite run_app, Heq. cbn. apply cached_stays. }
  rewrite Hs. done.
Qed.

Lemma resolved_import_is_shared_witness :
  let yuji := {| Fonts.name := "Yuji Mai"; Fonts.className := "font-yuji" |} in
  let s := Fonts.run "production"
             [Fonts.Call false; Fonts.Call false;
              Fonts.Settle 0 (Some [yuji]); Fonts.Settle 0 None;
              Fonts.Call true] in
  Fonts.fontsCache s = Some [yuji] /\
  awaited s (Fonts.Shared 0) = Some [yuji].
Proof.
  intros yuji s.
  destruct (resolved_import_is_shared "production"
              [Fonts.Call false; Fonts.Call false]
              [Fonts.Settle 0 None; Fonts.Call true] 0 [yuji])
    as (Hc & _ & Ha & _); [by split|].
  split; [exact Hc | exact Ha].
Defined.

(** X10: [getAllMainColors] throws exactly when there are fewer than three
    theme groups, and otherwise returns the empty pool exactly when the
    third group has no theme. *)
Theorem color_pool_edge_cases themeSets :
  (Themes.getAllMainColors themeSets = None <-> length themeSets <= 2) /\
  forall themeGroup,
    themeSets !! 2 = Some themeGroup ->
    (Themes.getAllMainColors themeSets = Some [] <->
     Themes.themes themeGroup = []).
Proof.
  unfold Themes.getAllMainColors. split.
  - destruct (themeSets !! 2) as [g|] eqn:Hg.
    + split; [done|]. intros Hlen.
      apply lookup_lt_Some in Hg. lia.
    + split; [|done]. intros _. by apply lookup_ge_None in Hg.
  - intros g ->. split.
    + intros [= Hnil]. destruct (Themes.themes g) as [|theme rest]; [done|].
      destruct (fold_addTheme (theme :: rest) [] (NoDup_nil_2)) as [_ Hiff].
      assert (Hin : Themes.mainColor theme
                    ∈ fold_left Themes.addTheme (theme :: rest) []).
      { apply Hiff. right. exists theme. split; [left|by left]. }
      rewrite Hnil in Hin. by apply elem_of_nil in Hin.
    + by intros ->.
Qed.

Lemma color_pool_edge_cases_witness :
  let plain := {| Themes.themes :=
                    [{| Themes.mainColor := "#000000";
                        Themes.secondaryColor := Some "" |}] |} in
  Themes.getAllMainColors [plain; plain] = None /\
  Themes.getAllMainColors [plain; plain; {| Themes.themes := [] |}] = Some [] /\
  Themes.getAllMainColors [plain; plain; plain] = Some ["#000000"].
Proof.
  intros plain.
  split; [apply (color_pool_edge_cases [plain; plain]); cbn; lia|].
  split; [|reflexivity].
  by apply (proj2 (color_pool_edge_cases
                     [plain; plain; {| Themes.themes := [] |}])
              {| Themes.themes := [] |} eq_refl).
Defined.

(** While a load is in flight every cell is handed the pending promise. *)
Lemma mountAll_shared env cells s p :
  Forall (fun c => Fonts.isProduction env || forceShow c = true) cells ->
  Fonts.fontsCache s = None -> Fonts.fontsLoadingPromise s = Some p ->
  mountAll env cells s
  = (map (fun c => withAwaiting c (Some (Fonts.Shared p))) cells, s).
Proof.
  intros Hall Hc Hp. induction cells as [|c cells IH]; [done|].
  inversion Hall as [|? ? Hok Hrest]; subst.
  cbn [mountAll map]. unfold initializeStyles_call, Fonts.loadDecorationFonts.
  assert (negb (Fonts.isProduction env) && negb (forceShow c) = false) as ->.
  { destruct (Fonts.isProduction env), (forceShow c); done. }
  rewrite Hc, Hp, (IH Hrest). done.
Qed.

(** X11: when the cells of a field mount one after the other, in
    production or with [forceShow], the first starts the one import and
    all of them wait on the same promise; when it succeeds each of them is
    handed the list of the module. *)
Theorem cells_share_one_import env c cells fonts :
  Forall (fun c => Fonts.isProduction env || forceShow c = true) (c :: cells) ->
  let '(mountedCells, loader) := mountAll env (c :: cells) Fonts.initial in
  length (Fonts.promises loader) = 1 /\
  mountedCells
  = map (fun c => withAwaiting c (Some (Fonts.Shared 0))) (c :: cells) /\
  Forall (fun c' => awaiting c' = Some (Fonts.Shared 0) /\
                    awaited loader (Fonts.Shared 0) = None /\
                    awaited (Fonts.importSettles 0 (Some fonts) loader)
                      (Fonts.Shared 0) = Some fonts) mountedCells.
Proof.
  intros Hall. inversion Hall as [|? ? Hok Hrest]; subst.
  cbn [mountAll]. unfold initializeStyles_call, Fonts.loadDecorationFonts.
  assert (negb (Fonts.isProduction env) && negb (forceShow c) = false) as ->.
  { destruct (Fonts.isProduction env), (forceShow c); done. }
  cbn [Fonts.fontsCache Fonts.fontsLoadingPromise Fonts.promises
       Fonts.cacheWrites Fonts.initial length app].
  rewrite (mountAll_shared env cells
             {| Fonts.fontsCache := None; Fonts.fontsLoadingPromise := Some 0;
                Fonts.promises := [Fonts.Pending]; Fonts.cacheWrites := 0 |}
             0 Hrest eq_refl eq_refl).
  split; [done|]. split; [done|].
  constructor; [done|]. apply Forall_forall. intros c' Hin.
  apply list_elem_of_In, in_map_iff in Hin as (c0 & <- & _). done.
Qed.

Lemma cells_share_one_import_witness :
  let cells := map (fun ch => create ch true true 0 0) ["日"; "本"; "語"] in
  let yuji := {| Fonts.name := "Yuji Mai"; Fonts.className := "font-yuji" |} in
  length (Fonts.promises (mountAll "development" cells Fonts.initial).2) = 1 /\
  map awaiting (mountAll "development" cells Fonts.initial).1
  = [Some (Fonts.Shared 0); Some (Fonts.Shared 0); Some (Fonts.Shared 0)].
Proof.
  intros cells yuji.
  pose proof (cells_share_one_import "development"
                (create "日" true true 0 0)
                (map (fun ch => create ch true true 0 0) ["本"; "語"])
                [yuji]) as H.
  assert (Hall : Forall (fun c => Fonts.isProduction "development"
                                  || forceShow c = true) cells)
    by (repeat constructor).
  specialize (H Hall).
  change (mountAll "development"
            (create "日" true true 0 0
             :: map (fun ch => create ch true true 0 0) ["本"; "語"])
            Fonts.initial)
    with (mountAll "development" cells Fonts.initial) in H.
  destruct (mountAll "development" cells Fonts.initial) as [ms l].
  destruct H as (Hlen & Hms & _).
  split; [exact Hlen|]. cbn [fst]. rewrite Hms. reflexivity.
Defined.
